(** * Helix-2 stream cipher: keystream engine, block cache and XOR transform

    A shallow embedding of [src/helix2.c] (version 2.1, with the 64-bit block
    counter and the cached block index) and of the earlier, cache-less
    [helix2.c] that ships next to it, followed by the properties the
    specification states about them.

    Conventions of the embedding
    - [uint8_t], [uint32_t], [uint64_t] values are integers of [Z]; every
      place where C wraps or narrows is written out with [u8], [u32], [u64].
    - The two [uint32_t[16]] arrays of the context are lists of words, read
      with [rd] and written with stdpp's list insert.
    - The context is passed explicitly: a C function that mutates
      [*context] becomes a function returning the new context.
    - [(uint8_t * )context->keystream.stream] is the byte view of the word
      array on a little-endian host: byte [k] is bits [8*(k mod 4)..] of
      word [k / 4]. *)

From Stdlib Require Import ZArith Lia String Ascii.
From stdpp Require Import base list.

Local Open Scope Z_scope.

(** ** Machine integers *)

Definition u8  (x : Z) : Z := x mod 2 ^ 8.
Definition u32 (x : Z) : Z := x mod 2 ^ 32.
Definition u64 (x : Z) : Z := x mod 2 ^ 64.

Definition is_u8  (x : Z) : Prop := 0 <= x < 2 ^ 8.
Definition is_u32 (x : Z) : Prop := 0 <= x < 2 ^ 32.
Definition is_u64 (x : Z) : Prop := 0 <= x < 2 ^ 64.

(** [uint32_t] addition. *)
Definition add32 (x y : Z) : Z := u32 (x + y).

(** Array read; the C arrays have fixed sizes and every index used by the
    program is a constant below the size, so the default is never observed
    on a well-formed context (see the [Checked] module). *)
Definition rd (a : list Z) (i : nat) : Z := default 0 (a !! i).

(** [#define HELIX2_KEYSTREAM_SIZE 64] *)
Abbreviation HELIX2_KEYSTREAM_SIZE := 64 (only parsing).

(** ** Context (helix2.h) *)

Record helix2_internal_keystream_t := mk_keystream {
  stream : list Z;
  state : list Z;
  current_block_index : Z;
  last_block_index : Z
}.

Record helix2_context_t := mk_context {
  nonce : list Z;
  key : list Z;
  keystream : helix2_internal_keystream_t
}.

Definition set_stream (ks : helix2_internal_keystream_t) (s : list Z) :=
  mk_keystream s (state ks) (current_block_index ks) (last_block_index ks).
Definition set_state (ks : helix2_internal_keystream_t) (s : list Z) :=
  mk_keystream (stream ks) s (current_block_index ks) (last_block_index ks).
Definition set_current_block_index (ks : helix2_internal_keystream_t) (i : Z) :=
  mk_keystream (stream ks) (state ks) i (last_block_index ks).
Definition set_last_block_index (ks : helix2_internal_keystream_t) (i : Z) :=
  mk_keystream (stream ks) (state ks) (current_block_index ks) i.
Definition set_keystream (c : helix2_context_t) (ks : helix2_internal_keystream_t) :=
  mk_context (nonce c) (key c) ks.

(** ** Internal helpers (helix2.c) *)

(** [(x << n) | (x >> (32 - n))] on [uint32_t]. *)
Definition _rotl32 (x n : Z) : Z :=
  Z.lor (u32 (Z.shiftl x n)) (Z.shiftr x (32 - n)).

(** [_pack4 (&a[off])]. *)
Definition _pack4 (a : list Z) (off : nat) : Z :=
  let res := 0 in
  let res := Z.lor res (u32 (Z.shiftl (rd a off) (0 * 8))) in
  let res := Z.lor res (u32 (Z.shiftl (rd a (off + 1)) (1 * 8))) in
  let res := Z.lor res (u32 (Z.shiftl (rd a (off + 2)) (2 * 8))) in
  let res := Z.lor res (u32 (Z.shiftl (rd a (off + 3)) (3 * 8))) in
  res.

Definition _helix2_shuffle (state : list Z) (a b c d : nat) : list Z :=
  let state := <[c := add32 (rd state c) (_rotl32 (add32 (Z.lxor (rd state a) (rd state b)) (rd state d)) 9)]> state in
  let state := <[d := Z.lxor (rd state d) (_rotl32 (Z.lxor (add32 (rd state b) (rd state c)) (rd state a)) 13)]> state in
  let state := <[a := add32 (rd state a) (_rotl32 (add32 (Z.lxor (rd state c) (rd state d)) (rd state b)) 18)]> state in
  let state := <[b := Z.lxor (rd state b) (_rotl32 (Z.lxor (add32 (rd state d) (rd state a)) (rd state c)) 22)]> state in
  let state := <[c := Z.lxor (rd state c) (_rotl32 (add32 (rd state a) (rd state b)) 7)]> state in
  let state := <[d := add32 (rd state d) (_rotl32 (Z.lxor (rd state b) (rd state c)) 21)]> state in
  let state := <[a := Z.lxor (rd state a) (_rotl32 (add32 (rd state c) (rd state d)) 11)]> state in
  let state := <[b := add32 (rd state b) (_rotl32 (Z.lxor (rd state d) (rd state a)) 16)]> state in
  state.

(** The sixteen statements [stream[k] += state[k]], k = 0 .. 15. *)
Definition add_state (stream state : list Z) : list Z :=
  foldl (fun s k => <[k := add32 (rd s k) (rd state k)]> s) stream
        [0; 1; 2; 3; 4; 5; 6; 7; 8; 9; 10; 11; 12; 13; 14; 15]%nat.

(** [memcpy (dst, src, n)] on arrays of equal element type. *)
Definition memcpy (dst src : list Z) (n : nat) : list Z :=
  take n src ++ drop n dst.

Definition _helix2_initialize_keystream (context : helix2_context_t) : helix2_context_t :=
  let ks := keystream context in
  (* Update the block index in the state *)
  let st := <[10%nat := u32 (Z.land (current_block_index ks) 0xFFFFFFFF)]> (state ks) in
  let st := <[11%nat := Z.lxor (_pack4 (nonce context) 0)
                               (u32 (Z.land (Z.shiftr (current_block_index ks) 32) 0xFFFFFFFF))]> st in
  (* Initialize the stream with the current state *)
  let s := memcpy (stream ks) st 16 in
  (* Round 1 *)
  let s := _helix2_shuffle s 0 1 2 3 in
  let s := _helix2_shuffle s 4 5 6 7 in
  let s := _helix2_shuffle s 8 9 10 11 in
  let s := _helix2_shuffle s 12 13 14 15 in
  let s := _helix2_shuffle s 0 4 8 12 in
  let s := _helix2_shuffle s 1 5 9 13 in
  let s := _helix2_shuffle s 2 6 10 14 in
  let s := _helix2_shuffle s 3 7 11 15 in
  let s := _helix2_shuffle s 0 5 10 15 in
  let s := _helix2_shuffle s 1 6 11 12 in
  let s := _helix2_shuffle s 2 7 8 13 in
  let s := _helix2_shuffle s 3 4 9 14 in
  (* Add the original state to the stream *)
  let s := add_state s st in
  (* Round 2 *)
  let s := _helix2_shuffle s 0 1 2 3 in
  let s := _helix2_shuffle s 4 5 6 7 in
  let s := _helix2_shuffle s 8 9 10 11 in
  let s := _helix2_shuffle s 12 13 14 15 in
  let s := _helix2_shuffle s 0 4 8 12 in
  let s := _helix2_shuffle s 1 5 9 13 in
  let s := _helix2_shuffle s 2 6 10 14 in
  let s := _helix2_shuffle s 3 7 11 15 in
  let s := _helix2_shuffle s 0 5 10 15 in
  let s := _helix2_shuffle s 1 6 11 12 in
  let s := _helix2_shuffle s 2 7 8 13 in
  let s := _helix2_shuffle s 3 4 9 14 in
  (* Add the original state to the stream, round 2 *)
  let s := add_state s st in
  (* Set last block index *)
  set_keystream context
    (mk_keystream s st (current_block_index ks) (current_block_index ks)).

(** ** Exposed functions (helix2.c) *)

Definition helix2_buffer_set_next_block (context : helix2_context_t) (block_index : Z)
  : helix2_context_t :=
  let context :=
    set_keystream context (set_current_block_index (keystream context) block_index) in
  _helix2_initialize_keystream context.

Definition helix2_buffer_next_block (context : helix2_context_t) : helix2_context_t :=
  helix2_buffer_set_next_block context
    (u64 (current_block_index (keystream context) + 1)).

(** The bytes of the string literal ["so!M4g1c"]. *)
Definition magic_constant : list Z :=
  map (fun ch => Z.of_N (N_of_ascii ch)) (list_ascii_of_string "so!M4g1c").

Definition helix2_initialize_context (K N : list Z) : helix2_context_t :=
  (* memset (context, 0, sizeof ( helix2_context_t )) *)
  let context :=
    mk_context (replicate 20 0) (replicate 32 0)
               (mk_keystream (replicate 16 0) (replicate 16 0) 0 0) in
  let context := mk_context (nonce context) (memcpy (key context) K 32) (keystream context) in
  let context := mk_context (memcpy (nonce context) N 20) (key context) (keystream context) in
  let st := state (keystream context) in
  let st := <[0%nat := _pack4 magic_constant 0]> st in
  let st := <[1%nat := _pack4 magic_constant 4]> st in
  let st := foldl (fun st i => <[(2 + i)%nat := _pack4 (key context) (i * 4)]> st) st (seq 0 8) in
  let st := <[10%nat := 0]> st in
  let st := <[11%nat := _pack4 (nonce context) 0]> st in
  let st := <[12%nat := _pack4 (nonce context) 4]> st in
  let st := <[13%nat := _pack4 (nonce context) 8]> st in
  let st := <[14%nat := _pack4 (nonce context) 12]> st in
  let st := <[15%nat := _pack4 (nonce context) 16]> st in
  let context := set_keystream context (set_state (keystream context) st) in
  let context := set_keystream context (set_last_block_index (keystream context) 0) in
  helix2_buffer_set_next_block context 0.

(** [((uint8_t * )stream)[block_offset]] on a little-endian host. *)
Definition keystream_bytes (stream : list Z) (block_offset : Z) : Z :=
  Z.land (Z.shiftr (rd stream (Z.to_nat (block_offset / 4))) (8 * (block_offset mod 4))) 0xFF.

Definition helix2_byte (context : helix2_context_t) (offset : Z) (byte : Z)
  : helix2_context_t * Z :=
  let context :=
    set_keystream context
      (set_current_block_index (keystream context) (offset / HELIX2_KEYSTREAM_SIZE)) in
  let block_offset := u8 (offset mod HELIX2_KEYSTREAM_SIZE) in
  let context :=
    if Z.eqb (last_block_index (keystream context)) (current_block_index (keystream context))
    then context
    else helix2_buffer_set_next_block context (current_block_index (keystream context)) in
  let result := u8 (Z.lxor byte (keystream_bytes (stream (keystream context)) block_offset)) in
  (context, result).

(** The [for] loop of [helix2_buffer]: the state carried from one iteration
    to the next is the context, [current_block] and [block_offset]; the
    bytes still to process are [buffer]. *)
Fixpoint helix2_buffer_loop (context : helix2_context_t) (buffer : list Z)
         (current_block block_offset : Z) : helix2_context_t * list Z :=
  match buffer with
  | [] => (context, [])
  | b :: rest =>
      let '(context, current_block, block_offset) :=
        if Z.leb HELIX2_KEYSTREAM_SIZE block_offset
        then (helix2_buffer_set_next_block context (u64 (current_block + 1)),
              u64 (current_block + 1), 0)
        else (context, current_block, block_offset) in
      let b' := u8 (Z.lxor b (keystream_bytes (stream (keystream context)) block_offset)) in
      let '(context, rest') :=
        helix2_buffer_loop context rest current_block (u8 (block_offset + 1)) in
      (context, b' :: rest')
  end.

Definition helix2_buffer (context : helix2_context_t) (buffer : list Z) (start_offset : Z)
  : helix2_context_t * list Z :=
  let current_block := start_offset / HELIX2_KEYSTREAM_SIZE in
  let block_offset := u8 (start_offset mod HELIX2_KEYSTREAM_SIZE) in
  let context :=
    if Z.eqb (last_block_index (keystream context)) current_block
    then context
    else helix2_buffer_set_next_block context current_block in
  helix2_buffer_loop context buffer current_block block_offset.



(** Sequential single-byte processing: [out[i] = helix2_byte (ctx, start + i, in[i])]
    with the offset computed in [uint64_t]. *)
Fixpoint helix2_byte_seq (context : helix2_context_t) (buffer : list Z) (offset : Z)
  : helix2_context_t * list Z :=
  match buffer with
  | [] => (context, [])
  | b :: rest =>
      let '(context, r) := helix2_byte context offset b in
      let '(context, rs) := helix2_byte_seq context rest (u64 (offset + 1)) in
      (context, r :: rs)
  end.

(** ** The earlier, cache-less helix2.c

    Same constant, packing and shuffle; the context has no block indices,
    [helix2_initialize_context] generates nothing, [helix2_buffer]
    regenerates the block on every call, and the two rounds use different
    groups (rows and diagonals, then columns and mirrored diagonals). *)
Module Legacy.

Record helix2_context_t := mk_context {
  nonce : list Z;
  key : list Z;
  stream : list Z;
  state : list Z
}.

Definition _helix2_initialize_keystream (context : helix2_context_t) (block_index : Z)
  : helix2_context_t :=
  let st := <[10%nat := u32 (Z.land block_index 0xFFFFFFFF)]> (state context) in
  let st := <[11%nat := Z.lxor (_pack4 (nonce context) 0)
                               (u32 (Z.land (Z.shiftr block_index 32) 0xFFFFFFFF))]> st in
  let s := memcpy (stream context) st 16 in
  let s := _helix2_shuffle s 0 1 2 3 in
  let s := _helix2_shuffle s 4 5 6 7 in
  let s := _helix2_shuffle s 8 9 10 11 in
  let s := _helix2_shuffle s 12 13 14 15 in
  let s := _helix2_shuffle s 0 5 10 15 in
  let s := _helix2_shuffle s 1 6 11 12 in
  let s := _helix2_shuffle s 2 7 8 13 in
  let s := _helix2_shuffle s 3 4 9 14 in
  (* Add the original state to the stream *)
  let s := add_state s st in
  (* Round 2 (Shuffle columns and mirrored diagonal) *)
  let s := _helix2_shuffle s 0 4 8 12 in
  let s := _helix2_shuffle s 1 5 9 13 in
  let s := _helix2_shuffle s 2 6 10 14 in
  let s := _helix2_shuffle s 3 7 11 15 in
  let s := _helix2_shuffle s 3 6 9 12 in
  let s := _helix2_shuffle s 2 5 8 15 in
  let s := _helix2_shuffle s 1 4 11 14 in
  let s := _helix2_shuffle s 0 7 10 13 in
  (* Add the original state to the stream, round 2 *)
  let s := add_state s st in
  mk_context (nonce context) (key context) s st.

Definition helix2_initialize_context (K N : list Z) : helix2_context_t :=
  let context := mk_context (replicate 20 0) (replicate 32 0) (replicate 16 0) (replicate 16 0) in
  let context :=
    mk_context (nonce context) (memcpy (key context) K 32) (stream context) (state context) in
  let context :=
    mk_context (memcpy (nonce context) N 20) (key context) (stream context) (state context) in
  let st := state context in
  let st := <[0%nat := _pack4 magic_constant 0]> st in
  let st := <[1%nat := _pack4 magic_constant 4]> st in
  let st := <[2%nat := _pack4 (key context) 0]> st in
  let st := <[3%nat := _pack4 (key context) 4]> st in
  let st := <[4%nat := _pack4 (key context) 8]> st in
  let st := <[5%nat := _pack4 (key context) 12]> st in
  let st := <[6%nat := _pack4 (key context) 16]> st in
  let st := <[7%nat := _pack4 (key context) 20]> st in
  let st := <[8%nat := _pack4 (key context) 24]> st in
  let st := <[9%nat := _pack4 (key context) 28]> st in
  let st := <[10%nat := 0]> st in
  let st := <[11%nat := _pack4 (nonce context) 0]> st in
  let st := <[12%nat := _pack4 (nonce context) 4]> st in
  let st := <[13%nat := _pack4 (nonce context) 8]> st in
  let st := <[14%nat := _pack4 (nonce context) 12]> st in
  let st := <[15%nat := _pack4 (nonce context) 16]> st in
  mk_context (nonce context) (key context) (stream context) st.

Fixpoint helix2_buffer_loop (context : helix2_context_t) (buffer : list Z)
         (current_block block_offset : Z) : helix2_context_t * list Z :=
  match buffer with
  | [] => (context, [])
  | b :: rest =>
      let '(context, current_block, block_offset) :=
        if Z.leb HELIX2_KEYSTREAM_SIZE block_offset
        then (_helix2_initialize_keystream context (u64 (current_block + 1)),
              u64 (current_block + 1), 0)
        else (context, current_block, block_offset) in
      let b' := u8 (Z.lxor b (keystream_bytes (stream context) block_offset)) in
      let '(context, rest') :=
        helix2_buffer_loop context rest current_block (u8 (block_offset + 1)) in
      (context, b' :: rest')
  end.

Definition helix2_buffer (context : helix2_context_t) (buffer : list Z) (start_offset : Z)
  : helix2_context_t * list Z :=
  let current_block := start_offset / HELIX2_KEYSTREAM_SIZE in
  let block_offset := u8 (start_offset mod HELIX2_KEYSTREAM_SIZE) in
  let context := _helix2_initialize_keystream context current_block in
  helix2_buffer_loop context buffer current_block block_offset.

End Legacy.

(** ** Test inputs (tests/helix2_test.c) *)

Definition zero_key : list Z := replicate 32 0.
Definition zero_nonce : list Z := replicate 20 0.

(** ** Command-line tool (tools/helix2_cl.c)

    The key derivation, the nonce expansion and the read-transform-write
    loop of [main]. A C string is the list of its characters before the
    terminating NUL; an opened input file is the list of the bytes still to
    be read and [fread] takes up to [BUFFER_SIZE] of them; the output file
    is the list of the bytes written so far, and is a file other than the
    input ([-o] given with another path; without [-o] the tool opens the
    input path itself for writing, which this embedding does not cover).
    Argument parsing, file opening and the progress display are not part of
    the embedding. *)
Module Tool.

(** [#define BUFFER_SIZE 1024] *)
Abbreviation BUFFER_SIZE := 1024%nat (only parsing).

(** The three statements
    [z = (z ^ (z >> 16)) * 0x7FEB352Du; z = (z ^ (z >> 15)) * 0x846CA68Bu;
     z = z ^ (z >> 16);]
    which both [derive_key_from_password] and [generate_nonce_from_seed]
    run on a [uint32_t]. *)
Definition mix32 (z : Z) : Z :=
  let z := u32 (Z.lxor z (Z.shiftr z 16) * 0x7FEB352D) in
  let z := u32 (Z.lxor z (Z.shiftr z 15) * 0x846CA68B) in
  let z := Z.lxor z (Z.shiftr z 16) in
  z.

(** First loop of [derive_key_from_password]: [i] runs over the password. *)
Fixpoint password_loop (password : list Z) (i : nat) (state : Z) (key_words : list Z)
  : Z * list Z :=
  match password with
  | [] => (state, key_words)
  | ch :: rest =>
      let byte := u8 ch in
      let key_idx := (i mod 8)%nat in
      let state := Z.lxor state byte in
      let state := Z.lor (u32 (Z.shiftl state 13)) (Z.shiftr state 19) in
      let state := add32 state 0x9E3779B9 in
      let key_words := <[key_idx := Z.lxor (rd key_words key_idx) state]> key_words in
      password_loop rest (S i) state key_words
  end.

(** Second loop: four rounds over the eight words. *)
Definition strengthen (key_words : list Z) : list Z :=
  foldl (fun key_words _ =>
           foldl (fun key_words i => <[i := mix32 (rd key_words i)]> key_words)
                 key_words (seq 0 8))
        key_words (seq 0 4).

(** Third loop: the words as bytes, low-order byte first. *)
Definition key_bytes (key_words key : list Z) : list Z :=
  foldl (fun key i =>
           let key := <[(i * 4 + 0)%nat := Z.land (rd key_words i) 0xFF]> key in
           let key := <[(i * 4 + 1)%nat := Z.land (Z.shiftr (rd key_words i) 8) 0xFF]> key in
           let key := <[(i * 4 + 2)%nat := Z.land (Z.shiftr (rd key_words i) 16) 0xFF]> key in
           let key := <[(i * 4 + 3)%nat := Z.land (Z.shiftr (rd key_words i) 24) 0xFF]> key in
           key)
        key (seq 0 8).

(** The eight key words before they are written out as bytes. *)
Definition derived_key_words (password : list Z) : list Z :=
  let state := 0x9E3779B9 in
  let key_words := replicate 8 0 in
  let '(_, key_words) := password_loop password 0 state key_words in
  strengthen key_words.

(** [key] is the caller's 32-byte array; the result is its new contents. *)
Definition derive_key_from_password (password : list Z) (key : list Z) : list Z :=
  (* memset (key, 0, 32) *)
  let key := replicate 32 0 ++ drop 32 key in
  key_bytes (derived_key_words password) key.

(** [nonce_out] is the caller's array of (at least) four words. *)
Definition generate_nonce_from_seed (seed : Z) (nonce_out : list Z) : list Z :=
  let nonce_out := <[0%nat := seed]> nonce_out in
  let state := add32 seed 0x9E3779B9 in
  snd (foldl (fun '(state, nonce_out) i =>
                let state := add32 state 0x9E3779B9 in
                let z := mix32 state in
                (state,
                 <[i := Z.lxor z (add32 seed (u32 (0xA5A5A5A5 * Z.of_nat i)))]> nonce_out))
             (state, nonce_out) (seq 1 3)).

(** The [while] loop of [main]. Every iteration that reads at least one
    byte consumes it, so [fuel] iterations are enough for an input of fewer
    than [fuel] bytes; [None] means the fuel ran out. The result is the
    context, the output written and the final [file_offset]. *)
Fixpoint process_loop (fuel : nat) (ctx : helix2_context_t) (fin fout : list Z)
         (file_offset : Z) : option (helix2_context_t * list Z * Z) :=
  match fuel with
  | O => None
  | S fuel =>
      let buffer := take BUFFER_SIZE fin in
      let fin := drop BUFFER_SIZE fin in
      let bytes_read := length buffer in
      if (0 <? Z.of_nat bytes_read)
      then
        let '(ctx, buffer) := helix2_buffer ctx buffer file_offset in
        let fout := fout ++ buffer in
        let file_offset := u64 (file_offset + Z.of_nat bytes_read) in
        process_loop fuel ctx fin fout file_offset
      else Some (ctx, fout, file_offset)
  end.

(** [main] from the key derivation to the end of the loop: the bytes
    written to the output for a password, a 20-byte nonce and the contents
    of the input file. The mode ([-e] or [-d]) is not consulted by this
    part of [main]. *)
Definition process_file (password nonce fin : list Z) : option (list Z) :=
  let key := derive_key_from_password password (replicate 32 0) in
  let ctx := helix2_initialize_context key nonce in
  match process_loop (S (length fin)) ctx fin [] 0 with
  | Some (_, fout, _) => Some fout
  | None => None
  end.

End Tool.

(** ** Notions used in the statements *)

(** The context a caller obtains by constructing a context for [(K, N)]
    and seeking directly to block [i]. *)
Definition fresh_at (K N : list Z) (i : Z) : helix2_context_t :=
  helix2_buffer_set_next_block (helix2_initialize_context K N) i.

(** The sixteen keystream words of block [i], as generated on a freshly
    constructed context. *)
Definition block_words (K N : list Z) (i : Z) : list Z :=
  stream (keystream (fresh_at K N i)).

(** Contexts a client can hold: constructed by [helix2_initialize_context]
    and then only passed to the exposed functions. *)
Inductive reachable (K N : list Z) : helix2_context_t -> Prop :=
| reach_init : reachable K N (helix2_initialize_context K N)
| reach_byte c offset byte :
    reachable K N c -> is_u64 offset ->
    reachable K N (fst (helix2_byte c offset byte))
| reach_buffer c buffer start_offset :
    reachable K N c -> is_u64 start_offset ->
    reachable K N (fst (helix2_buffer c buffer start_offset))
| reach_set_next_block c block_index :
    reachable K N c -> is_u64 block_index ->
    reachable K N (helix2_buffer_set_next_block c block_index)
| reach_next_block c :
    reachable K N c ->
    reachable K N (helix2_buffer_next_block c).

(** The two arrays of the context have their declared sizes. *)
Definition sized (c : helix2_context_t) : Prop :=
  length (state (keystream c)) = 16%nat /\ length (stream (keystream c)) = 16%nat.

(** The twenty-four shuffles and two additions of
    [_helix2_initialize_keystream], from the copied stream [s] and the
    per-block state [st]. *)
Definition block_mix (s st : list Z) : list Z :=
  let s := _helix2_shuffle s 0 1 2 3 in
  let s := _helix2_shuffle s 4 5 6 7 in
  let s := _helix2_shuffle s 8 9 10 11 in
  let s := _helix2_shuffle s 12 13 14 15 in
  let s := _helix2_shuffle s 0 4 8 12 in
  let s := _helix2_shuffle s 1 5 9 13 in
  let s := _helix2_shuffle s 2 6 10 14 in
  let s := _helix2_shuffle s 3 7 11 15 in
  let s := _helix2_shuffle s 0 5 10 15 in
  let s := _helix2_shuffle s 1 6 11 12 in
  let s := _helix2_shuffle s 2 7 8 13 in
  let s := _helix2_shuffle s 3 4 9 14 in
  let s := add_state s st in
  let s := _helix2_shuffle s 0 1 2 3 in
  let s := _helix2_shuffle s 4 5 6 7 in
  let s := _helix2_shuffle s 8 9 10 11 in
  let s := _helix2_shuffle s 12 13 14 15 in
  let s := _helix2_shuffle s 0 4 8 12 in
  let s := _helix2_shuffle s 1 5 9 13 in
  let s := _helix2_shuffle s 2 6 10 14 in
  let s := _helix2_shuffle s 3 7 11 15 in
  let s := _helix2_shuffle s 0 5 10 15 in
  let s := _helix2_shuffle s 1 6 11 12 in
  let s := _helix2_shuffle s 2 7 8 13 in
  let s := _helix2_shuffle s 3 4 9 14 in
  add_state s st.

(** The per-block state: words 10 and 11 overwritten from the index. *)
Definition block_state (st N : list Z) (i : Z) : list Z :=
  <[11%nat := Z.lxor (_pack4 N 0) (u32 (Z.land (Z.shiftr i 32) 0xFFFFFFFF))]>
    (<[10%nat := u32 (Z.land i 0xFFFFFFFF)]> st).

(** A context is coherent when it is exactly the context a fresh
    construction followed by one seek would give, for some block index. *)
Definition coherent (K N : list Z) (c : helix2_context_t) : Prop :=
  exists i, is_u64 i /\ c = fresh_at K N i.

(** Cache-free derivation of a range: byte [i] of the buffer is XORed with
    byte [(offset + i) mod 64] of block [(offset + i) / 64], every block
    taken from [blk]. *)
Fixpoint xor_range (blk : Z -> list Z) (buffer : list Z) (offset : Z) : list Z :=
  match buffer with
  | [] => []
  | b :: rest =>
      u8 (Z.lxor b (keystream_bytes (blk (offset / 64)) (offset mod 64)))
      :: xor_range blk rest (offset + 1)
  end.

(** A context with its [current_block_index] field blanked: two contexts
    that agree after blanking hold the same key, nonce, state, cached block
    and last-generated index. *)
Definition forget_current (c : helix2_context_t) : helix2_context_t :=
  set_keystream c (set_current_block_index (keystream c) 0).

Definition same_cache (c1 c2 : helix2_context_t) : Prop :=
  forget_current c1 = forget_current c2.

(** The sixteen shuffles and two additions of the cache-less
    [_helix2_initialize_keystream]. *)
Definition legacy_block_mix (s st : list Z) : list Z :=
  let s := _helix2_shuffle s 0 1 2 3 in
  let s := _helix2_shuffle s 4 5 6 7 in
  let s := _helix2_shuffle s 8 9 10 11 in
  let s := _helix2_shuffle s 12 13 14 15 in
  let s := _helix2_shuffle s 0 5 10 15 in
  let s := _helix2_shuffle s 1 6 11 12 in
  let s := _helix2_shuffle s 2 7 8 13 in
  let s := _helix2_shuffle s 3 4 9 14 in
  let s := add_state s st in
  let s := _helix2_shuffle s 0 4 8 12 in
  let s := _helix2_shuffle s 1 5 9 13 in
  let s := _helix2_shuffle s 2 6 10 14 in
  let s := _helix2_shuffle s 3 7 11 15 in
  let s := _helix2_shuffle s 3 6 9 12 in
  let s := _helix2_shuffle s 2 5 8 15 in
  let s := _helix2_shuffle s 1 4 11 14 in
  let s := _helix2_shuffle s 0 7 10 13 in
  add_state s st.

(** The legacy context a caller obtains by constructing a context for
    [(K, N)] and generating block [i]. *)
Definition legacy_fresh_at (K N : list Z) (i : Z) : Legacy.helix2_context_t :=
  Legacy._helix2_initialize_keystream (Legacy.helix2_initialize_context K N) i.

(** The sixteen keystream words of block [i] in the cache-less file. *)
Definition legacy_block_words (K N : list Z) (i : Z) : list Z :=
  Legacy.stream (legacy_fresh_at K N i).

(** The two arrays of the legacy context have their declared sizes. *)
Definition legacy_sized (c : Legacy.helix2_context_t) : Prop :=
  length (Legacy.state c) = 16%nat /\ length (Legacy.stream c) = 16%nat.

(** The eight rotation amounts the specification lists. *)
Definition rotation_amounts : list Z := [7; 9; 11; 13; 16; 18; 21; 22].

(** The contexts on which the checked program is run: both word arrays
    have sixteen words and the nonce has (at least) its first four bytes. *)
Definition well_sized (c : helix2_context_t) : Prop :=
  sized c /\ (4 <= length (nonce c))%nat.

(** The block that [helix2_buffer] leaves in the cache after [n] bytes from
    [start_offset]: the block of the last byte transformed, or the block of
    [start_offset] when there is none. *)
Definition last_block_touched (start_offset : Z) (n : nat) : Z :=
  match n with
  | O => start_offset / 64
  | S _ => (start_offset + Z.of_nat n - 1) / 64
  end.

(** ** The block generator as the specification words it

    Section 4.2 of the specification: [mix] on four words, the three
    passes of four groups, the word-wise additions of the per-block state,
    and the low-order-byte-first serialisation. The definitions below
    follow that text; they are compared with the embedding of
    [_helix2_initialize_keystream]. *)
Module Spec.

Definition rotl (x n : Z) : Z := _rotl32 x n.

Definition mix (w : Z * Z * Z * Z) : Z * Z * Z * Z :=
  let '(a, b, c, d) := w in
  let c := add32 c (rotl (add32 (Z.lxor a b) d) 9) in
  let d := Z.lxor d (rotl (Z.lxor (add32 b c) a) 13) in
  let a := add32 a (rotl (add32 (Z.lxor c d) b) 18) in
  let b := Z.lxor b (rotl (Z.lxor (add32 d a) c) 22) in
  let c := Z.lxor c (rotl (add32 a b) 7) in
  let d := add32 d (rotl (Z.lxor b c) 21) in
  let a := Z.lxor a (rotl (add32 c d) 11) in
  let b := add32 b (rotl (Z.lxor d a) 16) in
  (a, b, c, d).

Definition row_groups : list (nat * nat * nat * nat) :=
  [(0, 1, 2, 3); (4, 5, 6, 7); (8, 9, 10, 11); (12, 13, 14, 15)]%nat.
Definition column_groups : list (nat * nat * nat * nat) :=
  [(0, 4, 8, 12); (1, 5, 9, 13); (2, 6, 10, 14); (3, 7, 11, 15)]%nat.
Definition diagonal_groups : list (nat * nat * nat * nat) :=
  [(0, 5, 10, 15); (1, 6, 11, 12); (2, 7, 8, 13); (3, 4, 9, 14)]%nat.

(** [mix] applied to the four selected positions of the working array. *)
Definition mix_group (w : list Z) (g : nat * nat * nat * nat) : list Z :=
  let '(ia, ib, ic, id) := g in
  let '(a, b, c, d) := mix (rd w ia, rd w ib, rd w ic, rd w id) in
  <[ia := a]> (<[ib := b]> (<[ic := c]> (<[id := d]> w))).

(** One round: rows, then columns, then diagonals. *)
Definition round (w : list Z) : list Z :=
  foldl mix_group w (row_groups ++ column_groups ++ diagonal_groups).

(** Word-wise wrap-around addition of the per-block state. *)
Definition add_words (w per_block : list Z) : list Z := zip_with add32 w per_block.

(** A word as four bytes, low-order byte first. *)
Definition le_bytes (w : Z) : list Z :=
  [w mod 2 ^ 8; (w / 2 ^ 8) mod 2 ^ 8; (w / 2 ^ 16) mod 2 ^ 8; (w / 2 ^ 24) mod 2 ^ 8].

(** The per-block state: the seed with word 10 and word 11 overwritten. *)
Definition per_block_state (seed_state : list Z) (nonce_word block_index : Z) : list Z :=
  <[11%nat := Z.lxor nonce_word (block_index / 2 ^ 32)]>
    (<[10%nat := block_index mod 2 ^ 32]> seed_state).

Definition generate_words (seed_state : list Z) (nonce_word block_index : Z) : list Z :=
  let per_block := per_block_state seed_state nonce_word block_index in
  let w := per_block in
  let w := round w in
  let w := add_words w per_block in
  let w := round w in
  let w := add_words w per_block in
  w.

Definition generate_block (seed_state : list Z) (nonce_word block_index : Z) : list Z :=
  flat_map le_bytes (generate_words seed_state nonce_word block_index).

End Spec.

(** ** The program with every partial operation made explicit

    The same functions once more, in the option monad: an array access
    outside the array, a [memcpy] beyond either array and a rotation that
    the rotation primitive does not define give [None]. The rotation
    primitive is a parameter of the section, so that a statement about
    the amounts the program rotates by can be made by restricting it. *)
Module Checked.

(** A C shift of a 32-bit operand is defined for amounts 0 .. 31. *)
Definition shift_defined (n : Z) : bool := (0 <=? n) && (n <? 32).

(** [(x << n) | (x >> (32 - n))]: defined when both shifts are. *)
Definition _rotl32 (x n : Z) : option Z :=
  if shift_defined n && shift_defined (32 - n)
  then Some (Z.lor (u32 (Z.shiftl x n)) (Z.shiftr x (32 - n)))
  else None.

Definition rd (a : list Z) (i : nat) : option Z := a !! i.

Definition wr (a : list Z) (i : nat) (v : Z) : option (list Z) :=
  if decide (i < length a)%nat then Some (<[i := v]> a) else None.

(** [a[i] += e] and [a[i] ^= e]. *)
Definition add_assign (a : list Z) (i : nat) (e : option Z) : option (list Z) :=
  v ← e; x ← rd a i; wr a i (add32 x v).
Definition xor_assign (a : list Z) (i : nat) (e : option Z) : option (list Z) :=
  v ← e; x ← rd a i; wr a i (Z.lxor x v).

Definition _pack4 (a : list Z) (off : nat) : option Z :=
  a0 ← rd a off; a1 ← rd a (off + 1); a2 ← rd a (off + 2); a3 ← rd a (off + 3);
  Some (Z.lor (Z.lor (Z.lor (Z.lor 0 (u32 (Z.shiftl a0 (0 * 8))))
                            (u32 (Z.shiftl a1 (1 * 8))))
                     (u32 (Z.shiftl a2 (2 * 8))))
              (u32 (Z.shiftl a3 (3 * 8)))).

Definition memcpy (dst src : list Z) (n : nat) : option (list Z) :=
  if decide (n <= length src /\ n <= length dst)%nat
  then Some (take n src ++ drop n dst) else None.

(** Byte [block_offset] of the 64-byte array [stream]. *)
Definition keystream_bytes (stream : list Z) (block_offset : Z) : option Z :=
  if (0 <=? block_offset) && (block_offset <? 4 * Z.of_nat (length stream))
  then w ← rd stream (Z.to_nat (block_offset / 4));
       Some (Z.land (Z.shiftr w (8 * (block_offset mod 4))) 0xFF)
  else None.

Section Code.

Variable rot : Z -> Z -> option Z.

Definition _helix2_shuffle (state : list Z) (a b c d : nat) : option (list Z) :=
  state ← add_assign state c
            (x ← rd state a; y ← rd state b; z ← rd state d; rot (add32 (Z.lxor x y) z) 9);
  state ← xor_assign state d
            (x ← rd state b; y ← rd state c; z ← rd state a; rot (Z.lxor (add32 x y) z) 13);
  state ← add_assign state a
            (x ← rd state c; y ← rd state d; z ← rd state b; rot (add32 (Z.lxor x y) z) 18);
  state ← xor_assign state b
            (x ← rd state d; y ← rd state a; z ← rd state c; rot (Z.lxor (add32 x y) z) 22);
  state ← xor_assign state c (x ← rd state a; y ← rd state b; rot (add32 x y) 7);
  state ← add_assign state d (x ← rd state b; y ← rd state c; rot (Z.lxor x y) 21);
  state ← xor_assign state a (x ← rd state c; y ← rd state d; rot (add32 x y) 11);
  add_assign state b (x ← rd state d; y ← rd state a; rot (Z.lxor x y) 16).

Definition add_state (stream state : list Z) : option (list Z) :=
  foldl (fun acc k => s ← acc; add_assign s k (rd state k)) (Some stream)
        [0; 1; 2; 3; 4; 5; 6; 7; 8; 9; 10; 11; 12; 13; 14; 15]%nat.

Definition _helix2_initialize_keystream (context : helix2_context_t)
  : option helix2_context_t :=
  let ks := keystream context in
  st ← wr (state ks) 10 (u32 (Z.land (current_block_index ks) 0xFFFFFFFF));
  p ← _pack4 (nonce context) 0;
  st ← wr st 11 (Z.lxor p (u32 (Z.land (Z.shiftr (current_block_index ks) 32) 0xFFFFFFFF)));
  s ← memcpy (stream ks) st 16;
  s ← _helix2_shuffle s 0 1 2 3;
  s ← _helix2_shuffle s 4 5 6 7;
  s ← _helix2_shuffle s 8 9 10 11;
  s ← _helix2_shuffle s 12 13 14 15;
  s ← _helix2_shuffle s 0 4 8 12;
  s ← _helix2_shuffle s 1 5 9 13;
  s ← _helix2_shuffle s 2 6 10 14;
  s ← _helix2_shuffle s 3 7 11 15;
  s ← _helix2_shuffle s 0 5 10 15;
  s ← _helix2_shuffle s 1 6 11 12;
  s ← _helix2_shuffle s 2 7 8 13;
  s ← _helix2_shuffle s 3 4 9 14;
  s ← add_state s st;
  s ← _helix2_shuffle s 0 1 2 3;
  s ← _helix2_shuffle s 4 5 6 7;
  s ← _helix2_shuffle s 8 9 10 11;
  s ← _helix2_shuffle s 12 13 14 15;
  s ← _helix2_shuffle s 0 4 8 12;
  s ← _helix2_shuffle s 1 5 9 13;
  s ← _helix2_shuffle s 2 6 10 14;
  s ← _helix2_shuffle s 3 7 11 15;
  s ← _helix2_shuffle s 0 5 10 15;
  s ← _helix2_shuffle s 1 6 11 12;
  s ← _helix2_shuffle s 2 7 8 13;
  s ← _helix2_shuffle s 3 4 9 14;
  s ← add_state s st;
  Some (set_keystream context
          (mk_keystream s st (current_block_index ks) (current_block_index ks))).

Definition helix2_buffer_set_next_block (context : helix2_context_t) (block_index : Z)
  : option helix2_context_t :=
  _helix2_initialize_keystream
    (set_keystream context (set_current_block_index (keystream context) block_index)).

Definition helix2_buffer_next_block (context : helix2_context_t) : option helix2_context_t :=
  helix2_buffer_set_next_block context
    (u64 (current_block_index (keystream context) + 1)).

Definition helix2_initialize_context (K N : list Z) : option helix2_context_t :=
  key ← memcpy (replicate 32 0) K 32;
  nonce ← memcpy (replicate 20 0) N 20;
  let st := replicate 16 0 in
  p ← _pack4 magic_constant 0; st ← wr st 0 p;
  p ← _pack4 magic_constant 4; st ← wr st 1 p;
  st ← foldl (fun acc i => st ← acc; p ← _pack4 key (i * 4); wr st (2 + i) p)
             (Some st) (seq 0 8);
  st ← wr st 10 0;
  p ← _pack4 nonce 0; st ← wr st 11 p;
  p ← _pack4 nonce 4; st ← wr st 12 p;
  p ← _pack4 nonce 8; st ← wr st 13 p;
  p ← _pack4 nonce 12; st ← wr st 14 p;
  p ← _pack4 nonce 16; st ← wr st 15 p;
  helix2_buffer_set_next_block
    (mk_context nonce key (mk_keystream (replicate 16 0) st 0 0)) 0.

Definition helix2_byte (context : helix2_context_t) (offset : Z) (byte : Z)
  : option (helix2_context_t * Z) :=
  let context :=
    set_keystream context
      (set_current_block_index (keystream context) (offset / HELIX2_KEYSTREAM_SIZE)) in
  let block_offset := u8 (offset mod HELIX2_KEYSTREAM_SIZE) in
  context ← (if Z.eqb (last_block_index (keystream context))
                      (current_block_index (keystream context))
             then Some context
             else helix2_buffer_set_next_block context
                    (current_block_index (keystream context)));
  k ← keystream_bytes (stream (keystream context)) block_offset;
  Some (context, u8 (Z.lxor byte k)).

Fixpoint helix2_buffer_loop (context : helix2_context_t) (buffer : list Z)
         (current_block block_offset : Z) : option (helix2_context_t * list Z) :=
  match buffer with
  | [] => Some (context, [])
  | b :: rest =>
      '(context, current_block, block_offset) ←
        (if Z.leb HELIX2_KEYSTREAM_SIZE block_offset
         then context ← helix2_buffer_set_next_block context (u64 (current_block + 1));
              Some (context, u64 (current_block + 1), 0)
         else Some (context, current_block, block_offset));
      k ← keystream_bytes (stream (keystream context)) block_offset;
      '(context, rest') ←
        helix2_buffer_loop context rest current_block (u8 (block_offset + 1));
      Some (context, u8 (Z.lxor b k) :: rest')
  end.

Definition helix2_buffer (context : helix2_context_t) (buffer : list Z) (start_offset : Z)
  : option (helix2_context_t * list Z) :=
  let current_block := start_offset / HELIX2_KEYSTREAM_SIZE in
  let block_offset := u8 (start_offset mod HELIX2_KEYSTREAM_SIZE) in
  context ← (if Z.eqb (last_block_index (keystream context)) current_block
             then Some context
             else helix2_buffer_set_next_block context current_block);
  helix2_buffer_loop context buffer current_block block_offset.

End Code.

End Checked.

(** * Auxiliary facts *)

(** ** Basic facts about the helpers *)

Ltac proj_simpl :=
  cbn [keystream stream state current_block_index last_block_index nonce key
       set_keystream set_stream set_state set_current_block_index
       set_last_block_index fst snd].

Lemma set_next_block_unfold c i :
  helix2_buffer_set_next_block c i =
  let st := block_state (state (keystream c)) (nonce c) i in
  mk_context (nonce c) (key c)
    (mk_keystream (block_mix (memcpy (stream (keystream c)) st 16) st) st i i).
Proof.
  unfold helix2_buffer_set_next_block, _helix2_initialize_keystream, block_mix, block_state.
  cbv zeta. unfold set_keystream, set_current_block_index.
  cbn [keystream stream state current_block_index last_block_index nonce key].
  reflexivity.
Qed.

(** One assignment [state[i] = v] followed by the rest of a function body
    keeps the array size when the rest does. *)
Lemma length_let_insert (s : list Z) (i : nat) (v : Z) (k : list Z -> list Z) (n : nat) :
  length s = n ->
  (forall s', length s' = n -> length (k s') = n) ->
  length (let x := <[i := v]> s in k x) = n.
Proof. intros Hs Hk. cbv zeta. apply Hk. rewrite length_insert. exact Hs. Qed.

Ltac length_let_step :=
  lazymatch goal with
  | |- length (let x := <[?i := ?v]> ?s0 in @?k x) = ?n =>
      apply (length_let_insert s0 i v k n); [assumption || reflexivity|];
      let s' := fresh "s" in let H := fresh "Hlen" in intros s' H; cbv beta
  end.

Lemma length_shuffle s a b c d : length (_helix2_shuffle s a b c d) = length s.
Proof.
  cbv beta delta [_helix2_shuffle].
  do 7 length_let_step.
  rewrite length_insert. assumption.
Qed.

Lemma length_add_state s st : length (add_state s st) = length s.
Proof.
  unfold add_state.
  generalize [0; 1; 2; 3; 4; 5; 6; 7; 8; 9; 10; 11; 12; 13; 14; 15]%nat.
  intros l. revert s.
  induction l as [|k l IH]; intros s; cbn [foldl]; [reflexivity|].
  rewrite IH. apply length_insert.
Qed.

Lemma length_block_mix s st : length (block_mix s st) = length s.
Proof.
  unfold block_mix. cbv zeta.
  repeat first [rewrite length_add_state | rewrite length_shuffle].
  reflexivity.
Qed.

Lemma length_block_state st N i : length (block_state st N i) = length st.
Proof. unfold block_state. by rewrite !length_insert. Qed.

Lemma memcpy_whole dst src n :
  length src = n -> length dst = n -> memcpy dst src n = src.
Proof.
  intros Hs Hd. unfold memcpy.
  rewrite take_ge, drop_ge by lia. apply app_nil_r.
Qed.

Lemma block_state_again st N i j :
  block_state (block_state st N i) N j = block_state st N j.
Proof.
  unfold block_state.
  rewrite (list_insert_insert_ne _ 10 11) by lia.
  rewrite !list_insert_insert_eq. reflexivity.
Qed.

Lemma sized_set_next_block c i : sized c -> sized (helix2_buffer_set_next_block c i).
Proof.
  intros [Hst Hs]. rewrite set_next_block_unfold. unfold sized. cbv zeta. proj_simpl.
  rewrite length_block_mix, length_block_state.
  split; [exact Hst|].
  rewrite memcpy_whole; rewrite ?length_block_state; assumption.
Qed.

(** Regenerating twice is regenerating once, at the later index: nothing of
    the first generation survives the second. *)
Lemma set_next_block_twice c i j :
  sized c ->
  helix2_buffer_set_next_block (helix2_buffer_set_next_block c i) j =
  helix2_buffer_set_next_block c j.
Proof.
  intros [Hst Hs]. rewrite !set_next_block_unfold. cbv zeta. proj_simpl.
  rewrite block_state_again.
  assert (Hbs : forall k, length (block_state (state (keystream c)) (nonce c) k) = 16%nat)
    by (intros k; rewrite length_block_state; exact Hst).
  rewrite (memcpy_whole (block_mix _ _)).
  - rewrite memcpy_whole; [reflexivity | apply Hbs | exact Hs].
  - apply Hbs.
  - rewrite length_block_mix, memcpy_whole; [apply Hbs | apply Hbs | exact Hs].
Qed.

Lemma set_next_block_set_current c x j :
  helix2_buffer_set_next_block
    (set_keystream c (set_current_block_index (keystream c) x)) j =
  helix2_buffer_set_next_block c j.
Proof. rewrite !set_next_block_unfold. reflexivity. Qed.

Lemma current_set_next_block c i :
  current_block_index (keystream (helix2_buffer_set_next_block c i)) = i.
Proof. rewrite set_next_block_unfold. reflexivity. Qed.

Lemma last_set_next_block c i :
  last_block_index (keystream (helix2_buffer_set_next_block c i)) = i.
Proof. rewrite set_next_block_unfold. reflexivity. Qed.

(** Writing the index a generated context already holds changes nothing. *)
Lemma set_current_same c i :
  set_keystream (helix2_buffer_set_next_block c i)
    (set_current_block_index (keystream (helix2_buffer_set_next_block c i)) i) =
  helix2_buffer_set_next_block c i.
Proof. rewrite !set_next_block_unfold. reflexivity. Qed.

(** ** Construction *)

(** The context just before the closing call of
    [helix2_initialize_context]: zeroed, key and nonce copied, seed packed. *)
Lemma initialize_context_sized K N : sized (helix2_initialize_context K N).
Proof.
  cbv beta zeta delta [helix2_initialize_context].
  apply sized_set_next_block. split; vm_compute; reflexivity.
Qed.

Lemma initialize_context_fresh K N : helix2_initialize_context K N = fresh_at K N 0.
Proof.
  unfold fresh_at. cbv beta zeta delta [helix2_initialize_context].
  symmetry. apply set_next_block_twice. split; vm_compute; reflexivity.
Qed.

Lemma fresh_at_sized K N i : sized (fresh_at K N i).
Proof. apply sized_set_next_block, initialize_context_sized. Qed.

Lemma set_next_block_fresh K N i j :
  helix2_buffer_set_next_block (fresh_at K N i) j = fresh_at K N j.
Proof. apply set_next_block_twice, initialize_context_sized. Qed.

Lemma set_next_block_def c i :
  helix2_buffer_set_next_block c i =
  _helix2_initialize_keystream
    (set_keystream c (set_current_block_index (keystream c) i)).
Proof. reflexivity. Qed.

Lemma nonce_set_next_block c i : nonce (helix2_buffer_set_next_block c i) = nonce c.
Proof. rewrite set_next_block_unfold. reflexivity. Qed.

Lemma nonce_initialize_context K N :
  nonce (helix2_initialize_context K N) = memcpy (replicate 20 0) N 20.
Proof.
  cbv beta zeta delta [helix2_initialize_context].
  rewrite nonce_set_next_block. reflexivity.
Qed.

(** [helix2_initialize_context] as its last call on the seeded context. *)
Lemma initialize_context_unfold K N :
  helix2_initialize_context K N =
  let key := memcpy (replicate 32 0) K 32 in
  let nonce := memcpy (replicate 20 0) N 20 in
  let st := <[0%nat := _pack4 magic_constant 0]> (replicate 16 0) in
  let st := <[1%nat := _pack4 magic_constant 4]> st in
  let st := foldl (fun st i => <[(2 + i)%nat := _pack4 key (i * 4)]> st) st (seq 0 8) in
  let st := <[10%nat := 0]> st in
  let st := <[11%nat := _pack4 nonce 0]> st in
  let st := <[12%nat := _pack4 nonce 4]> st in
  let st := <[13%nat := _pack4 nonce 8]> st in
  let st := <[14%nat := _pack4 nonce 12]> st in
  let st := <[15%nat := _pack4 nonce 16]> st in
  helix2_buffer_set_next_block
    (mk_context nonce key (mk_keystream (replicate 16 0) st 0 0)) 0.
Proof. reflexivity. Qed.

Lemma stream_fresh K N i : stream (keystream (fresh_at K N i)) = block_words K N i.
Proof. unfold block_words. reflexivity. Qed.

(** From here on the generator is used through the equations above. *)
#[local] Opaque helix2_buffer_set_next_block helix2_initialize_context block_words.

(** ** The cache invariant *)

Lemma u64_is_u64 x : is_u64 (u64 x).
Proof. unfold is_u64, u64. apply Z.mod_pos_bound. lia. Qed.

Lemma div64_is_u64 x : is_u64 x -> is_u64 (x / HELIX2_KEYSTREAM_SIZE).
Proof.
  unfold is_u64. intros [H0 H1]. split.
  - apply Z.div_pos; lia.
  - apply Z.div_lt_upper_bound; lia.
Qed.

Lemma u8_mod64 x : u8 (x mod HELIX2_KEYSTREAM_SIZE) = x mod 64.
Proof.
  unfold u8.
  apply Z.mod_small. pose proof (Z.mod_pos_bound x 64). lia.
Qed.

Lemma coherent_init K N : coherent K N (helix2_initialize_context K N).
Proof. exists 0. split; [unfold is_u64; lia | apply initialize_context_fresh]. Qed.

Lemma coherent_set_next_block K N c j :
  coherent K N c -> is_u64 j -> coherent K N (helix2_buffer_set_next_block c j).
Proof.
  intros (i & Hi & ->) Hj. exists j. split; [exact Hj | apply set_next_block_fresh].
Qed.

Lemma last_fresh K N i : last_block_index (keystream (fresh_at K N i)) = i.
Proof. apply last_set_next_block. Qed.

Lemma current_fresh K N i : current_block_index (keystream (fresh_at K N i)) = i.
Proof. apply current_set_next_block. Qed.

(** The cache check of [helix2_byte], on a coherent context. *)
Lemma ensure_fresh K N i j :
  (if last_block_index (keystream (fresh_at K N i)) =? j
   then set_keystream (fresh_at K N i)
          (set_current_block_index (keystream (fresh_at K N i)) j)
   else helix2_buffer_set_next_block
          (set_keystream (fresh_at K N i)
             (set_current_block_index (keystream (fresh_at K N i)) j)) j)
  = fresh_at K N j.
Proof.
  rewrite last_fresh.
  destruct (Z.eqb_spec i j) as [->|Hne].
  - apply set_current_same.
  - rewrite set_next_block_set_current. apply set_next_block_fresh.
Qed.

(** The cache check of [helix2_buffer], on a coherent context. *)
Lemma ensure_fresh_buffer K N i j :
  (if last_block_index (keystream (fresh_at K N i)) =? j
   then fresh_at K N i
   else helix2_buffer_set_next_block (fresh_at K N i) j)
  = fresh_at K N j.
Proof.
  rewrite last_fresh.
  destruct (Z.eqb_spec i j) as [->|Hne]; [reflexivity | apply set_next_block_fresh].
Qed.

(** [helix2_byte] on a coherent context: the context moves to the block of
    [offset], and the result is the input XOR the byte of that block. *)
Lemma helix2_byte_fresh K N i offset byte :
  helix2_byte (fresh_at K N i) offset byte =
  (fresh_at K N (offset / HELIX2_KEYSTREAM_SIZE),
   u8 (Z.lxor byte (keystream_bytes (block_words K N (offset / HELIX2_KEYSTREAM_SIZE))
                                    (offset mod 64)))).
Proof.
  unfold helix2_byte. rewrite u8_mod64. proj_simpl.
  rewrite !ensure_fresh, stream_fresh. reflexivity.
Qed.

Lemma coherent_byte K N c offset byte :
  coherent K N c -> is_u64 offset -> coherent K N (fst (helix2_byte c offset byte)).
Proof.
  intros (i & Hi & ->) Ho. rewrite helix2_byte_fresh. cbn [fst].
  exists (offset / HELIX2_KEYSTREAM_SIZE). split; [apply div64_is_u64, Ho | reflexivity].
Qed.

Lemma coherent_buffer_loop K N buffer :
  forall c cb bo, coherent K N c -> coherent K N (fst (helix2_buffer_loop c buffer cb bo)).
Proof.
  induction buffer as [|b rest IH]; intros c cb bo Hc; cbn [helix2_buffer_loop fst].
  - exact Hc.
  - destruct (Z.leb HELIX2_KEYSTREAM_SIZE bo).
    + specialize (IH (helix2_buffer_set_next_block c (u64 (cb + 1))) (u64 (cb + 1)) (u8 (0 + 1))
                     (coherent_set_next_block K N c _ Hc (u64_is_u64 _))).
      destruct (helix2_buffer_loop _ rest _ _). exact IH.
    + specialize (IH c cb (u8 (bo + 1)) Hc).
      destruct (helix2_buffer_loop _ rest _ _). exact IH.
Qed.

Lemma coherent_buffer K N c buffer start_offset :
  coherent K N c -> is_u64 start_offset ->
  coherent K N (fst (helix2_buffer c buffer start_offset)).
Proof.
  intros Hc Hs. unfold helix2_buffer. apply coherent_buffer_loop.
  destruct (Z.eqb _ _); [exact Hc|].
  apply coherent_set_next_block; [exact Hc | apply div64_is_u64, Hs].
Qed.

Lemma reachable_coherent K N c : reachable K N c -> coherent K N c.
Proof.
  induction 1 as [|c o b _ IH Ho|c buf o _ IH Ho|c j _ IH Hj|c _ IH].
  - apply coherent_init.
  - apply coherent_byte; assumption.
  - apply coherent_buffer; assumption.
  - apply coherent_set_next_block; assumption.
  - apply coherent_set_next_block; [assumption | apply u64_is_u64].
Qed.

(** ** The range transform against the single-byte transform *)

Lemma helix2_buffer_loop_cons c b rest cb bo :
  helix2_buffer_loop c (b :: rest) cb bo =
  let c1 := if Z.leb HELIX2_KEYSTREAM_SIZE bo
            then helix2_buffer_set_next_block c (u64 (cb + 1)) else c in
  let cb1 := if Z.leb HELIX2_KEYSTREAM_SIZE bo then u64 (cb + 1) else cb in
  let bo1 := if Z.leb HELIX2_KEYSTREAM_SIZE bo then 0 else bo in
  let r := helix2_buffer_loop c1 rest cb1 (u8 (bo1 + 1)) in
  (fst r, u8 (Z.lxor b (keystream_bytes (stream (keystream c1)) bo1)) :: snd r).
Proof.
  cbn [helix2_buffer_loop]. cbv zeta.
  destruct (Z.leb HELIX2_KEYSTREAM_SIZE bo);
    destruct (helix2_buffer_loop _ rest _ _); reflexivity.
Qed.

Lemma helix2_byte_seq_cons c b rest offset :
  helix2_byte_seq c (b :: rest) offset =
  let r1 := helix2_byte c offset b in
  let r := helix2_byte_seq (fst r1) rest (u64 (offset + 1)) in
  (fst r, snd r1 :: snd r).
Proof.
  cbn [helix2_byte_seq]. cbv zeta.
  destruct (helix2_byte c offset b) as [c1 r1]. cbn [fst snd].
  destruct (helix2_byte_seq c1 rest _). reflexivity.
Qed.

(** Arithmetic of offsets, blocks and intra-block offsets. *)
Lemma block_of_offset cb bo : 0 <= bo < 64 -> (64 * cb + bo) / 64 = cb.
Proof. intros H. symmetry. apply (Z.div_unique _ _ _ bo); lia. Qed.

Lemma intra_of_offset cb bo : 0 <= bo < 64 -> (64 * cb + bo) mod 64 = bo.
Proof. intros H. symmetry. apply (Z.mod_unique _ _ cb); lia. Qed.

Lemma u8_small x : 0 <= x < 256 -> u8 x = x.
Proof. intros H. unfold u8. apply Z.mod_small. lia. Qed.

Lemma u64_small x : 0 <= x < 2 ^ 64 -> u64 x = x.
Proof. intros H. unfold u64. apply Z.mod_small. lia. Qed.

(** The loop of [helix2_buffer] started on the coherent context of block
    [cb], with [bo] bytes of that block already consumed. *)
Lemma buffer_loop_fresh K N buffer :
  forall cb bo,
    0 <= cb -> 0 <= bo <= 64 ->
    64 * cb + bo + Z.of_nat (length buffer) <= 2 ^ 64 ->
    snd (helix2_buffer_loop (fresh_at K N cb) buffer cb bo) =
    xor_range (block_words K N) buffer (64 * cb + bo).
Proof.
  induction buffer as [|b rest IH]; intros cb bo Hcb Hbo Hlen; [reflexivity|].
  rewrite helix2_buffer_loop_cons. cbv zeta. cbn [snd xor_range].
  cbn [length] in Hlen.
  destruct (Z.leb_spec 64 bo) as [Hge|Hlt].
  - assert (bo = 64) by lia. subst bo.
    rewrite (u64_small (cb + 1)) by lia.
    rewrite set_next_block_fresh, stream_fresh.
    replace (64 * cb + 64) with (64 * (cb + 1) + 0) by lia.
    rewrite block_of_offset, intra_of_offset by lia.
    rewrite (u8_small (0 + 1)) by lia.
    rewrite IH by lia.
    f_equal. f_equal. lia.
  - rewrite stream_fresh, block_of_offset, intra_of_offset by lia.
    rewrite (u8_small (bo + 1)) by lia.
    rewrite IH by lia.
    f_equal. f_equal. lia.
Qed.

Lemma helix2_byte_seq_fresh K N buffer :
  forall i offset,
    0 <= offset -> offset + Z.of_nat (length buffer) <= 2 ^ 64 ->
    snd (helix2_byte_seq (fresh_at K N i) buffer offset) =
    xor_range (block_words K N) buffer offset.
Proof.
  induction buffer as [|b rest IH]; intros i offset H0 Hlen; [reflexivity|].
  rewrite helix2_byte_seq_cons. cbv zeta. cbn [snd xor_range].
  rewrite helix2_byte_fresh. cbn [fst snd].
  f_equal.
  destruct rest as [|b' rest']; [reflexivity|].
  cbn [length] in Hlen.
  rewrite (u64_small (offset + 1)) by lia.
  apply IH; cbn [length]; lia.
Qed.

(** [helix2_buffer] on a coherent context is the cache-free derivation. *)
Lemma helix2_buffer_fresh K N i buffer start_offset :
  0 <= start_offset ->
  start_offset + Z.of_nat (length buffer) <= 2 ^ 64 ->
  snd (helix2_buffer (fresh_at K N i) buffer start_offset) =
  xor_range (block_words K N) buffer start_offset.
Proof.
  intros H0 Hlen. unfold helix2_buffer. cbv zeta.
  rewrite ensure_fresh_buffer, u8_mod64.
  pose proof (Z.mod_pos_bound start_offset 64 ltac:(lia)) as Hm.
  pose proof (Z.div_mod start_offset 64 ltac:(lia)) as Hd.
  rewrite buffer_loop_fresh.
  - f_equal. lia.
  - apply Z.div_pos; lia.
  - lia.
  - lia.
Qed.

(** *** Arbitrary contexts

    The two transforms agree on any value of the context type, coherent or
    not: they consult the same cached index, regenerate at the same
    offsets, and differ only in when [current_block_index] is written. *)

Lemma set_next_block_forget c j :
  helix2_buffer_set_next_block c j = helix2_buffer_set_next_block (forget_current c) j.
Proof. unfold forget_current. rewrite set_next_block_set_current. reflexivity. Qed.

Lemma same_cache_set_next_block c1 c2 j :
  same_cache c1 c2 ->
  helix2_buffer_set_next_block c1 j = helix2_buffer_set_next_block c2 j.
Proof.
  intros H. rewrite (set_next_block_forget c1), (set_next_block_forget c2).
  rewrite H. reflexivity.
Qed.

Lemma same_cache_stream c1 c2 :
  same_cache c1 c2 -> stream (keystream c1) = stream (keystream c2).
Proof.
  intros H. change (stream (keystream (forget_current c1)) = stream (keystream (forget_current c2))).
  rewrite H. reflexivity.
Qed.

Lemma same_cache_last c1 c2 :
  same_cache c1 c2 -> last_block_index (keystream c1) = last_block_index (keystream c2).
Proof.
  intros H.
  change (last_block_index (keystream (forget_current c1)) =
          last_block_index (keystream (forget_current c2))).
  rewrite H. reflexivity.
Qed.

Lemma same_cache_set_current c x :
  same_cache c (set_keystream c (set_current_block_index (keystream c) x)).
Proof. reflexivity. Qed.

(** One [helix2_byte] call next to one iteration of the loop, when the
    cached index is the block of the offset. *)
Lemma helix2_byte_cached cB cS offset byte :
  same_cache cB cS ->
  last_block_index (keystream cB) = offset / HELIX2_KEYSTREAM_SIZE ->
  same_cache cB (fst (helix2_byte cS offset byte)) /\
  snd (helix2_byte cS offset byte) =
  u8 (Z.lxor byte (keystream_bytes (stream (keystream cB)) (offset mod 64))).
Proof.
  intros Hsame Hlast. unfold helix2_byte. rewrite u8_mod64. proj_simpl.
  rewrite <- (same_cache_last _ _ Hsame), Hlast, Z.eqb_refl. proj_simpl.
  split.
  - unfold same_cache in *. rewrite Hsame. reflexivity.
  - rewrite (same_cache_stream _ _ Hsame). reflexivity.
Qed.

(** One [helix2_byte] call at the first offset of the block after the
    cached one: it regenerates, as the loop does. *)
Lemma helix2_byte_regenerates cB cS offset byte :
  same_cache cB cS ->
  last_block_index (keystream cB) <> offset / HELIX2_KEYSTREAM_SIZE ->
  helix2_byte cS offset byte =
  (helix2_buffer_set_next_block cB (offset / HELIX2_KEYSTREAM_SIZE),
   u8 (Z.lxor byte
         (keystream_bytes
            (stream (keystream (helix2_buffer_set_next_block cB (offset / HELIX2_KEYSTREAM_SIZE))))
            (offset mod 64)))).
Proof.
  intros Hsame Hlast. unfold helix2_byte. rewrite u8_mod64. proj_simpl.
  rewrite <- (same_cache_last _ _ Hsame).
  destruct (Z.eqb_spec (last_block_index (keystream cB)) (offset / HELIX2_KEYSTREAM_SIZE))
    as [Heq|_]; [contradiction|].
  rewrite set_next_block_set_current.
  rewrite (same_cache_set_next_block _ _ _ Hsame). reflexivity.
Qed.

Lemma buffer_loop_byte_seq buffer :
  forall cB cS cb bo,
    same_cache cB cS -> last_block_index (keystream cB) = cb ->
    0 <= cb -> 0 <= bo <= 64 ->
    64 * cb + bo + Z.of_nat (length buffer) <= 2 ^ 64 ->
    snd (helix2_buffer_loop cB buffer cb bo) =
    snd (helix2_byte_seq cS buffer (64 * cb + bo)).
Proof.
  induction buffer as [|b rest IH]; intros cB cS cb bo Hsame Hlast Hcb Hbo Hlen;
    [reflexivity|].
  rewrite helix2_buffer_loop_cons, helix2_byte_seq_cons. cbv zeta. cbn [snd fst].
  cbn [length] in Hlen.
  assert (Hnext : rest = [] \/ u64 (64 * cb + bo + 1) = 64 * cb + bo + 1).
  { destruct rest; [left; reflexivity | right]. cbn [length] in Hlen.
    apply u64_small. lia. }
   destruct (Z.leb_spec 64 bo) as [Hge|Hlt].
  - assert (bo = 64) by lia. subst bo.
    assert (Hblk : (64 * cb + 64) / HELIX2_KEYSTREAM_SIZE = cb + 1).
    { replace (64 * cb + 64) with (64 * (cb + 1) + 0) by lia.
      apply block_of_offset. lia. }
    assert (Hoff : (64 * cb + 64) mod 64 = 0).
    { replace (64 * cb + 64) with (64 * (cb + 1) + 0) by lia.
      apply intra_of_offset. lia. }
    rewrite (helix2_byte_regenerates cB cS) by (rewrite ?Hblk; trivial; lia).
    rewrite Hblk, Hoff. cbn [fst snd].
    rewrite (u64_small (cb + 1)) by lia.
    f_equal.
    destruct Hnext as [->|Hnext]; [reflexivity|].
    rewrite Hnext, (u8_small (0 + 1)) by lia.
    replace (64 * cb + 64 + 1) with (64 * (cb + 1) + (0 + 1)) by lia.
    apply IH; try lia.
    + reflexivity.
    + apply last_set_next_block.
  - assert (Hblk : (64 * cb + bo) / HELIX2_KEYSTREAM_SIZE = cb)
      by (apply block_of_offset; lia).
    destruct (helix2_byte_cached cB cS (64 * cb + bo) b Hsame) as [Hsame' Hbyte];
      [rewrite Hblk; exact Hlast|].
    rewrite Hbyte, intra_of_offset by lia.
    f_equal.
    destruct Hnext as [->|Hnext]; [reflexivity|].
    rewrite Hnext, (u8_small (bo + 1)) by lia.
    replace (64 * cb + bo + 1) with (64 * cb + (bo + 1)) by lia.
    apply IH; try lia; assumption.
Qed.

(** A first [helix2_byte] call performs the cache check that
    [helix2_buffer] performs before its loop. *)
Lemma helix2_byte_after_check c offset byte :
  helix2_byte
    (if Z.eqb (last_block_index (keystream c)) (offset / HELIX2_KEYSTREAM_SIZE)
     then c else helix2_buffer_set_next_block c (offset / HELIX2_KEYSTREAM_SIZE))
    offset byte
  = helix2_byte c offset byte.
Proof.
  destruct (Z.eqb_spec (last_block_index (keystream c)) (offset / HELIX2_KEYSTREAM_SIZE))
    as [Heq|Hne].
  - reflexivity.
  - unfold helix2_byte. proj_simpl.
    rewrite last_set_next_block, Z.eqb_refl.
    rewrite (proj2 (Z.eqb_neq _ _) Hne).
    rewrite set_current_same, set_next_block_set_current. reflexivity.
Qed.

Lemma helix2_byte_seq_after_check c buffer offset :
  snd (helix2_byte_seq
         (if Z.eqb (last_block_index (keystream c)) (offset / HELIX2_KEYSTREAM_SIZE)
          then c else helix2_buffer_set_next_block c (offset / HELIX2_KEYSTREAM_SIZE))
         buffer offset)
  = snd (helix2_byte_seq c buffer offset).
Proof.
  destruct buffer as [|b rest]; [reflexivity|].
  rewrite !helix2_byte_seq_cons. cbv zeta.
  rewrite helix2_byte_after_check. reflexivity.
Qed.

(** ** The cache-less file *)

Lemma legacy_initialize_keystream_unfold c i :
  Legacy._helix2_initialize_keystream c i =
  let st := block_state (Legacy.state c) (Legacy.nonce c) i in
  Legacy.mk_context (Legacy.nonce c) (Legacy.key c)
    (legacy_block_mix (memcpy (Legacy.stream c) st 16) st) st.
Proof.
  unfold Legacy._helix2_initialize_keystream, legacy_block_mix, block_state.
  cbv zeta. reflexivity.
Qed.

Lemma length_legacy_block_mix s st : length (legacy_block_mix s st) = length s.
Proof.
  unfold legacy_block_mix. cbv zeta.
  repeat first [rewrite length_add_state | rewrite length_shuffle].
  reflexivity.
Qed.

Lemma legacy_initialize_keystream_twice c i j :
  legacy_sized c ->
  Legacy._helix2_initialize_keystream (Legacy._helix2_initialize_keystream c i) j =
  Legacy._helix2_initialize_keystream c j.
Proof.
  intros [Hst Hs]. rewrite !legacy_initialize_keystream_unfold. cbv zeta.
  cbn [Legacy.nonce Legacy.key Legacy.stream Legacy.state].
  rewrite block_state_again.
  assert (Hbs : forall k, length (block_state (Legacy.state c) (Legacy.nonce c) k) = 16%nat)
    by (intros k; rewrite length_block_state; exact Hst).
  rewrite (memcpy_whole (legacy_block_mix _ _)).
  - rewrite memcpy_whole; [reflexivity | apply Hbs | exact Hs].
  - apply Hbs.
  - rewrite length_legacy_block_mix, memcpy_whole; [apply Hbs | apply Hbs | exact Hs].
Qed.

Lemma legacy_initialize_context_sized K N :
  legacy_sized (Legacy.helix2_initialize_context K N).
Proof. split; vm_compute; reflexivity. Qed.

Lemma legacy_regenerate K N i j :
  Legacy._helix2_initialize_keystream (legacy_fresh_at K N i) j = legacy_fresh_at K N j.
Proof. apply legacy_initialize_keystream_twice, legacy_initialize_context_sized. Qed.

Lemma legacy_stream_fresh K N i :
  Legacy.stream (legacy_fresh_at K N i) = legacy_block_words K N i.
Proof. unfold legacy_block_words. reflexivity. Qed.

#[local] Opaque Legacy._helix2_initialize_keystream Legacy.helix2_initialize_context
  legacy_block_words.

Lemma legacy_buffer_loop_cons c b rest cb bo :
  Legacy.helix2_buffer_loop c (b :: rest) cb bo =
  let c1 := if Z.leb HELIX2_KEYSTREAM_SIZE bo
            then Legacy._helix2_initialize_keystream c (u64 (cb + 1)) else c in
  let cb1 := if Z.leb HELIX2_KEYSTREAM_SIZE bo then u64 (cb + 1) else cb in
  let bo1 := if Z.leb HELIX2_KEYSTREAM_SIZE bo then 0 else bo in
  let r := Legacy.helix2_buffer_loop c1 rest cb1 (u8 (bo1 + 1)) in
  (fst r, u8 (Z.lxor b (keystream_bytes (Legacy.stream c1) bo1)) :: snd r).
Proof.
  cbn [Legacy.helix2_buffer_loop]. cbv zeta.
  destruct (Z.leb HELIX2_KEYSTREAM_SIZE bo);
    destruct (Legacy.helix2_buffer_loop _ rest _ _); reflexivity.
Qed.

Lemma legacy_buffer_loop_fresh K N buffer :
  forall cb bo,
    0 <= cb -> 0 <= bo <= 64 ->
    64 * cb + bo + Z.of_nat (length buffer) <= 2 ^ 64 ->
    snd (Legacy.helix2_buffer_loop (legacy_fresh_at K N cb) buffer cb bo) =
    xor_range (legacy_block_words K N) buffer (64 * cb + bo).
Proof.
  induction buffer as [|b rest IH]; intros cb bo Hcb Hbo Hlen; [reflexivity|].
  rewrite legacy_buffer_loop_cons. cbv zeta. cbn [snd xor_range].
  cbn [length] in Hlen.
  destruct (Z.leb_spec 64 bo) as [Hge|Hlt].
  - assert (bo = 64) by lia. subst bo.
    rewrite (u64_small (cb + 1)) by lia.
    rewrite legacy_regenerate, legacy_stream_fresh.
    replace (64 * cb + 64) with (64 * (cb + 1) + 0) by lia.
    rewrite block_of_offset, intra_of_offset by lia.
    rewrite (u8_small (0 + 1)) by lia.
    rewrite IH by lia.
    f_equal. f_equal. lia.
  - rewrite legacy_stream_fresh, block_of_offset, intra_of_offset by lia.
    rewrite (u8_small (bo + 1)) by lia.
    rewrite IH by lia.
    f_equal. f_equal. lia.
Qed.

(** The legacy [helix2_buffer], on a constructed context or on one that
    has already generated blocks, is the cache-free derivation from the
    legacy block function. *)
Lemma legacy_buffer_fresh K N c buffer start_offset :
  c = Legacy.helix2_initialize_context K N \/ (exists i, c = legacy_fresh_at K N i) ->
  0 <= start_offset ->
  start_offset + Z.of_nat (length buffer) <= 2 ^ 64 ->
  snd (Legacy.helix2_buffer c buffer start_offset) =
  xor_range (legacy_block_words K N) buffer start_offset.
Proof.
  intros Hc H0 Hlen. unfold Legacy.helix2_buffer. cbv zeta.
  assert (Hgen : Legacy._helix2_initialize_keystream c (start_offset / HELIX2_KEYSTREAM_SIZE)
                 = legacy_fresh_at K N (start_offset / HELIX2_KEYSTREAM_SIZE)).
  { destruct Hc as [->|[i ->]]; [reflexivity | apply legacy_regenerate]. }
  rewrite Hgen, u8_mod64.
  pose proof (Z.mod_pos_bound start_offset 64 ltac:(lia)) as Hm.
  pose proof (Z.div_mod start_offset 64 ltac:(lia)) as Hd.
  rewrite legacy_buffer_loop_fresh.
  - f_equal. lia.
  - apply Z.div_pos; lia.
  - lia.
  - lia.
Qed.

(** ** Rotation *)

Lemma u32_high_bits x j : is_u32 x -> 32 <= j -> Z.testbit x j = false.
Proof.
  unfold is_u32. intros Hx Hj.
  destruct (Z.eq_dec x 0) as [->|Hx0]; [apply Z.bits_0|].
  apply Z.bits_above_log2; [lia|].
  assert (Z.log2 x < 32) by (apply Z.log2_lt_pow2; lia). lia.
Qed.

(** [_rotl32] is the left rotation of a 32-bit word: bit [j] of the result
    is bit [(j - n) mod 32] of the operand. *)
Lemma rotl32_bits x n j :
  is_u32 x -> 0 < n < 32 -> 0 <= j ->
  Z.testbit (_rotl32 x n) j =
  if j <? 32 then Z.testbit x ((j - n) mod 32) else false.
Proof.
  intros Hx Hn Hj. unfold _rotl32, u32.
  rewrite Z.lor_spec, Z.shiftr_spec by lia.
  destruct (Z.ltb_spec j 32) as [Hlt|Hge].
  - rewrite Z.mod_pow2_bits_low by lia. rewrite Z.shiftl_spec by lia.
    destruct (Z.lt_ge_cases j n) as [Hjn|Hjn].
    + rewrite (Z.testbit_neg_r x (j - n)) by lia. cbn [orb].
      f_equal. apply (Z.mod_unique _ _ (-1)); lia.
    + rewrite (Z.mod_small (j - n)) by lia.
      rewrite (u32_high_bits x (j + (32 - n)) Hx) by lia.
      apply Bool.orb_false_r.
  - rewrite Z.mod_pow2_bits_high by lia. cbn [orb].
    apply (u32_high_bits x _ Hx). lia.
Qed.

(** ** Bytes *)

Lemma keystream_bytes_is_u8 s k : is_u8 (keystream_bytes s k).
Proof.
  unfold keystream_bytes, is_u8.
  change 255 with (Z.ones 8). rewrite Z.land_ones by lia.
  apply Z.mod_pos_bound. lia.
Qed.

Lemma u8_lxor a b : u8 (Z.lxor a b) = Z.lxor (u8 a) (u8 b).
Proof.
  unfold u8. apply Z.bits_inj'. intros n Hn.
  rewrite Z.lxor_spec.
  destruct (Z.lt_ge_cases n 8) as [Hlt|Hge].
  - rewrite !Z.mod_pow2_bits_low by lia. apply Z.lxor_spec.
  - rewrite !Z.mod_pow2_bits_high by lia. reflexivity.
Qed.

Lemma u8_idem x : u8 (u8 x) = u8 x.
Proof. unfold u8. apply Z.mod_mod. lia. Qed.

(** XORing twice with the same keystream byte gives the input back. *)
Lemma xor_twice b k : is_u8 b -> is_u8 k -> u8 (Z.lxor (u8 (Z.lxor b k)) k) = b.
Proof.
  intros Hb Hk. rewrite u8_lxor, u8_idem, u8_lxor.
  rewrite (u8_small b), (u8_small k) by exact Hb || exact Hk.
  rewrite Z.lxor_assoc, Z.lxor_nilpotent. apply Z.lxor_0_r.
Qed.

Lemma helix2_byte_reachable K N c offset byte :
  reachable K N c ->
  helix2_byte c offset byte =
  (fresh_at K N (offset / HELIX2_KEYSTREAM_SIZE),
   u8 (Z.lxor byte (keystream_bytes (block_words K N (offset / HELIX2_KEYSTREAM_SIZE))
                                    (offset mod 64)))).
Proof.
  intros Hc. destruct (reachable_coherent K N c Hc) as (i & _ & ->).
  apply helix2_byte_fresh.
Qed.

Lemma reachable_byte_seq K N buffer :
  forall c offset,
    reachable K N c -> is_u64 offset ->
    reachable K N (fst (helix2_byte_seq c buffer offset)).
Proof.
  induction buffer as [|b rest IH]; intros c offset Hc Ho; [exact Hc|].
  rewrite helix2_byte_seq_cons. cbv zeta. cbn [fst].
  apply IH; [apply reach_byte; assumption | apply u64_is_u64].
Qed.

Lemma rd_insert_eq (l : list Z) i v : (i < length l)%nat -> rd (<[i := v]> l) i = v.
Proof. intros H. unfold rd. rewrite list_lookup_insert_eq by exact H. reflexivity. Qed.

Lemma rd_insert_ne (l : list Z) i j v : i <> j -> rd (<[i := v]> l) j = rd l j.
Proof. intros H. unfold rd. rewrite list_lookup_insert_ne by exact H. reflexivity. Qed.

Lemma low_word i : u32 (Z.land i 0xFFFFFFFF) = i mod 2 ^ 32.
Proof.
  unfold u32. change 0xFFFFFFFF with (Z.ones 32).
  rewrite Z.land_ones by lia. apply Z.mod_mod. lia.
Qed.

Lemma high_word i : is_u64 i -> u32 (Z.land (Z.shiftr i 32) 0xFFFFFFFF) = i / 2 ^ 32.
Proof.
  intros [H0 H1]. rewrite low_word, Z.shiftr_div_pow2 by lia.
  apply Z.mod_small. split.
  - apply Z.div_pos; lia.
  - apply Z.div_lt_upper_bound; lia.
Qed.

(** ** The source generator against the specification's *)

Ltac explicit_words s :=
  do 16 (destruct s as [|? s]; [discriminate|]);
  destruct s; [|discriminate].

(** On the twelve groups, the in-place shuffle is [mix] on the four
    selected words. *)
Lemma shuffle_mix_group s g :
  length s = 16%nat ->
  In g (Spec.row_groups ++ Spec.column_groups ++ Spec.diagonal_groups) ->
  let '(a, b, c, d) := g in _helix2_shuffle s a b c d = Spec.mix_group s g.
Proof.
  intros Hlen Hg. explicit_words s.
  cbv [Spec.row_groups Spec.column_groups Spec.diagonal_groups app In] in Hg.
  repeat (destruct Hg as [<-|Hg]; [cbv -[add32 _rotl32 Z.lxor]; reflexivity|]).
  contradiction.
Qed.

Lemma shuffle_mix_group_at s a b c d :
  length s = 16%nat ->
  In (a, b, c, d) (Spec.row_groups ++ Spec.column_groups ++ Spec.diagonal_groups) ->
  _helix2_shuffle s a b c d = Spec.mix_group s (a, b, c, d).
Proof. intros Hlen Hg. exact (shuffle_mix_group s (a, b, c, d) Hlen Hg). Qed.

Lemma length_mix_group s g : length (Spec.mix_group s g) = length s.
Proof.
  destruct g as [[[a b] c] d]. unfold Spec.mix_group.
  destruct (Spec.mix _) as [[[wa wb] wc] wd]. rewrite !length_insert. reflexivity.
Qed.

Lemma length_round s : length (Spec.round s) = length s.
Proof.
  unfold Spec.round.
  generalize (Spec.row_groups ++ Spec.column_groups ++ Spec.diagonal_groups).
  intros gs. revert s.
  induction gs as [|g gs IH]; intros s; cbn [foldl]; [reflexivity|].
  rewrite IH. apply length_mix_group.
Qed.

Lemma length_add_words s st :
  length s = 16%nat -> length st = 16%nat -> length (Spec.add_words s st) = 16%nat.
Proof.
  intros Hs Hst. unfold Spec.add_words. rewrite length_zip_with. lia.
Qed.

Lemma add_state_add_words s st :
  length s = 16%nat -> length st = 16%nat -> add_state s st = Spec.add_words s st.
Proof.
  intros Hs Hst. explicit_words s. explicit_words st.
  cbv -[add32]. reflexivity.
Qed.

(** A group list is run by the source as one shuffle per group, in order. *)
Lemma shuffles_fold gs :
  forall s,
    length s = 16%nat ->
    (forall g, In g gs ->
               In g (Spec.row_groups ++ Spec.column_groups ++ Spec.diagonal_groups)) ->
    foldl (fun w g => let '(a, b, c, d) := g in _helix2_shuffle w a b c d) s gs =
    foldl Spec.mix_group s gs.
Proof.
  induction gs as [|g gs IH]; intros s Hs Hin; cbn [foldl]; [reflexivity|].
  assert (Hg := shuffle_mix_group s g Hs (Hin g (or_introl eq_refl))).
  destruct g as [[[a b] c] d]. rewrite Hg.
  apply IH; [rewrite length_mix_group; exact Hs|].
  intros g' Hg'. apply Hin. right. exact Hg'.
Qed.

(** The twelve shuffle calls of one round of the source. *)
Lemma round_shuffles s :
  length s = 16%nat ->
  _helix2_shuffle
    (_helix2_shuffle
       (_helix2_shuffle
          (_helix2_shuffle
             (_helix2_shuffle
                (_helix2_shuffle
                   (_helix2_shuffle
                      (_helix2_shuffle
                         (_helix2_shuffle
                            (_helix2_shuffle
                               (_helix2_shuffle
                                  (_helix2_shuffle s 0 1 2 3) 4 5 6 7) 8 9 10 11)
                            12 13 14 15) 0 4 8 12) 1 5 9 13) 2 6 10 14) 3 7 11 15)
             0 5 10 15) 1 6 11 12) 2 7 8 13) 3 4 9 14
  = Spec.round s.
Proof.
  intros Hs. unfold Spec.round.
  rewrite <- (shuffles_fold _ s Hs (fun g H => H)).
  cbv [foldl app Spec.row_groups Spec.column_groups Spec.diagonal_groups].
  reflexivity.
Qed.

Lemma block_mix_spec s st :
  length s = 16%nat -> length st = 16%nat ->
  block_mix s st =
  Spec.add_words (Spec.round (Spec.add_words (Spec.round s) st)) st.
Proof.
  intros Hs Hst. unfold block_mix. cbv zeta.
  rewrite (round_shuffles s Hs).
  rewrite (add_state_add_words (Spec.round s) st) by (rewrite ?length_round; assumption).
  assert (H1 : length (Spec.add_words (Spec.round s) st) = 16%nat)
    by (apply length_add_words; rewrite ?length_round; assumption).
  rewrite (round_shuffles _ H1).
  rewrite add_state_add_words by (rewrite ?length_round; assumption).
  reflexivity.
Qed.

Lemma block_state_spec st N i :
  is_u64 i -> block_state st N i = Spec.per_block_state st (_pack4 N 0) i.
Proof.
  intros Hi. unfold block_state, Spec.per_block_state.
  rewrite high_word by exact Hi. rewrite (low_word i). reflexivity.
Qed.

Lemma initialize_keystream_unfold c :
  _helix2_initialize_keystream c =
  let i := current_block_index (keystream c) in
  let st := block_state (state (keystream c)) (nonce c) i in
  mk_context (nonce c) (key c)
    (mk_keystream (block_mix (memcpy (stream (keystream c)) st 16) st) st i i).
Proof.
  unfold _helix2_initialize_keystream, block_mix, block_state.
  cbv zeta. unfold set_keystream. reflexivity.
Qed.

Lemma byte_of_word w j :
  0 <= j -> Z.land (Z.shiftr w (8 * j)) 0xFF = (w / 2 ^ (8 * j)) mod 2 ^ 8.
Proof.
  intros Hj. change 0xFF with (Z.ones 8).
  rewrite Z.land_ones, Z.shiftr_div_pow2 by lia. reflexivity.
Qed.

(** The byte view of a word array is the concatenation of the words'
    bytes, low-order byte first. *)
Lemma keystream_bytes_le s :
  forall k,
    0 <= k < 4 * Z.of_nat (length s) ->
    keystream_bytes s k = rd (flat_map Spec.le_bytes s) (Z.to_nat k).
Proof.
  induction s as [|w s IH]; intros k Hk; cbn [length] in Hk; [lia|].
  destruct (Z.lt_ge_cases k 4) as [Hlt|Hge].
  - unfold keystream_bytes.
    rewrite byte_of_word by (pose proof (Z.mod_pos_bound k 4); lia).
    rewrite (Z.div_small k 4), (Z.mod_small k 4) by lia.
    assert (Hcases : k = 0 \/ k = 1 \/ k = 2 \/ k = 3) by lia.
    destruct Hcases as [-> | [-> | [-> | ->]]]; cbn [flat_map Spec.le_bytes app];
      [rewrite Z.div_1_r| | |]; reflexivity.
  - assert (Hq : k / 4 = (k - 4) / 4 + 1).
    { replace k with (k - 4 + 1 * 4) at 1 by lia. apply Z.div_add. lia. }
    assert (Hr : k mod 4 = (k - 4) mod 4).
    { replace k with (k - 4 + 1 * 4) at 1 by lia. apply Z.mod_add. lia. }
    assert (Hq0 : 0 <= (k - 4) / 4) by (apply Z.div_pos; lia).
    unfold keystream_bytes. rewrite Hq, Hr.
    replace (Z.to_nat ((k - 4) / 4 + 1)) with (S (Z.to_nat ((k - 4) / 4))) by lia.
    replace (Z.to_nat k) with (S (S (S (S (Z.to_nat (k - 4)))))) by lia.
    cbn [flat_map Spec.le_bytes app].
    change (rd (w :: s) (S (Z.to_nat ((k - 4) / 4)))) with (rd s (Z.to_nat ((k - 4) / 4))).
    change (keystream_bytes s (k - 4) = rd (flat_map Spec.le_bytes s) (Z.to_nat (k - 4))).
    apply (IH (k - 4)). lia.
Qed.

Lemma length_le_bytes s : length (flat_map Spec.le_bytes s) = (4 * length s)%nat.
Proof.
  induction s as [|w s IH]; [reflexivity|].
  cbn [flat_map Spec.le_bytes app length]. rewrite IH. lia.
Qed.

(** ** No operation of the checked program fails on a constructed context *)

Lemma checked_rd_ok (a : list Z) i : (i < length a)%nat -> Checked.rd a i = Some (rd a i).
Proof.
  intros H. unfold Checked.rd, rd.
  destruct (lookup_lt_is_Some_2 a i H) as [x ->]. reflexivity.
Qed.

Lemma checked_wr_ok (a : list Z) i v :
  (i < length a)%nat -> Checked.wr a i v = Some (<[i := v]> a).
Proof. intros H. unfold Checked.wr. rewrite decide_True by exact H. reflexivity. Qed.

Lemma checked_add_assign_ok (a : list Z) i e v :
  (i < length a)%nat -> e = Some v ->
  Checked.add_assign a i e = Some (<[i := add32 (rd a i) v]> a).
Proof.
  intros H ->. unfold Checked.add_assign. cbn [mbind option_bind].
  rewrite checked_rd_ok by exact H. cbn [mbind option_bind].
  apply checked_wr_ok, H.
Qed.

Lemma checked_xor_assign_ok (a : list Z) i e v :
  (i < length a)%nat -> e = Some v ->
  Checked.xor_assign a i e = Some (<[i := Z.lxor (rd a i) v]> a).
Proof.
  intros H ->. unfold Checked.xor_assign. cbn [mbind option_bind].
  rewrite checked_rd_ok by exact H. cbn [mbind option_bind].
  apply checked_wr_ok, H.
Qed.

Lemma checked_pack4_ok (a : list Z) off :
  (off + 3 < length a)%nat -> Checked._pack4 a off = Some (_pack4 a off).
Proof.
  intros H. unfold Checked._pack4, _pack4.
  rewrite !checked_rd_ok by lia. reflexivity.
Qed.

Lemma checked_memcpy_ok dst src n :
  (n <= length src)%nat -> (n <= length dst)%nat ->
  Checked.memcpy dst src n = Some (memcpy dst src n).
Proof.
  intros Hs Hd. unfold Checked.memcpy. rewrite decide_True by (split; assumption).
  reflexivity.
Qed.

Lemma checked_keystream_bytes_ok s k :
  length s = 16%nat -> 0 <= k < 64 ->
  Checked.keystream_bytes s k = Some (keystream_bytes s k).
Proof.
  intros Hs Hk. unfold Checked.keystream_bytes, keystream_bytes. rewrite Hs.
  destruct (Z.leb_spec 0 k); [|lia].
  destruct (Z.ltb_spec k (4 * Z.of_nat 16)); [|lia].
  cbn [andb]. rewrite checked_rd_ok; [reflexivity|].
  rewrite Hs.
  assert (k / 4 < 16) by (apply Z.div_lt_upper_bound; lia).
  assert (0 <= k / 4) by (apply Z.div_pos; lia).
  lia.
Qed.

(** A statement that succeeds with a value of the right size, followed by
    a rest that succeeds on every array of that size. *)
Lemma bind_let_step {A : Type} (n : nat) (m : option (list Z)) (v : list Z)
      (k : list Z -> option A) (k' : list Z -> A) :
  m = Some v -> length v = n ->
  (forall s, length s = n -> k s = Some (k' s)) ->
  m ≫= k = Some (let s := v in k' s).
Proof. intros -> Hv Hk. cbn [mbind option_bind]. cbv zeta. apply Hk, Hv. Qed.

Section CheckedCode.

Variable rot : Z -> Z -> option Z.
Hypothesis rot_listed :
  forall x n, In n rotation_amounts -> rot x n = Some (_rotl32 x n).

Ltac listed := unfold rotation_amounts; cbn [In]; tauto.

Ltac rotation_ok :=
  rewrite ?checked_rd_ok by lia; cbn [mbind option_bind];
  apply rot_listed; listed.

Ltac statement_ok :=
  lazymatch goal with
  | |- Checked.add_assign _ _ _ = Some _ =>
      apply checked_add_assign_ok; [lia | rotation_ok]
  | |- Checked.xor_assign _ _ _ = Some _ =>
      apply checked_xor_assign_ok; [lia | rotation_ok]
  end.

Ltac shuffle_step :=
  lazymatch goal with
  | |- ?m ≫= ?k = Some (let s := ?v in @?k' s) =>
      apply (bind_let_step 16 m v k k');
      [statement_ok | rewrite length_insert; assumption
      | let s := fresh "s" in let H := fresh "Hs" in intros s H; cbv beta]
  end.

Lemma checked_shuffle_ok s a b c d :
  length s = 16%nat -> (a < 16)%nat -> (b < 16)%nat -> (c < 16)%nat -> (d < 16)%nat ->
  Checked._helix2_shuffle rot s a b c d = Some (_helix2_shuffle s a b c d).
Proof.
  intros Hs Ha Hb Hc Hd.
  cbv beta delta [Checked._helix2_shuffle _helix2_shuffle].
  do 7 shuffle_step.
  cbv zeta. statement_ok.
Qed.

Lemma checked_add_state_ok s st :
  length s = 16%nat -> length st = 16%nat ->
  Checked.add_state s st = Some (add_state s st).
Proof.
  intros Hs Hst. unfold Checked.add_state, add_state.
  assert (Hl : Forall (fun k => (k < 16)%nat)
                 [0; 1; 2; 3; 4; 5; 6; 7; 8; 9; 10; 11; 12; 13; 14; 15]%nat)
    by (repeat constructor; lia).
  revert Hl s Hs.
  generalize [0; 1; 2; 3; 4; 5; 6; 7; 8; 9; 10; 11; 12; 13; 14; 15]%nat.
  intros l Hl. induction Hl as [|k l Hk Hl IH]; intros s Hs; cbn [foldl]; [reflexivity|].
  cbn [mbind option_bind].
  rewrite (checked_add_assign_ok s k (Checked.rd st k) (rd st k))
    by (try apply checked_rd_ok; lia).
  apply IH. rewrite length_insert. exact Hs.
Qed.

Lemma bind_some {A B : Type} (m : option A) (v : A) (k : A -> option B) (r : option B) :
  m = Some v -> k v = r -> m ≫= k = r.
Proof. intros -> <-. reflexivity. Qed.

Lemma length_memcpy dst src n :
  length src = n -> length dst = n -> length (memcpy dst src n) = n.
Proof. intros Hs Hd. rewrite memcpy_whole; assumption. Qed.

Ltac len16 :=
  repeat first [rewrite length_shuffle | rewrite length_add_state
               | rewrite length_insert | rewrite length_memcpy ];
  try assumption; try reflexivity.

Ltac keystream_statement :=
  lazymatch goal with
  | |- Checked.wr _ _ _ = Some _ => apply checked_wr_ok; len16; lia
  | |- Checked._pack4 _ _ = Some _ => apply checked_pack4_ok; lia
  | |- Checked.memcpy _ _ _ = Some _ => apply checked_memcpy_ok; len16; lia
  | |- Checked._helix2_shuffle _ _ _ _ _ _ = Some _ =>
      apply checked_shuffle_ok; [len16 | lia | lia | lia | lia]
  | |- Checked.add_state _ _ = Some _ => apply checked_add_state_ok; len16
  end.

Lemma checked_initialize_keystream_ok c :
  well_sized c ->
  Checked._helix2_initialize_keystream rot c = Some (_helix2_initialize_keystream c).
Proof.
  intros [[Hst Hs] Hn].
  cbv beta zeta delta [Checked._helix2_initialize_keystream].
  unfold _helix2_initialize_keystream.
  do 30 (eapply bind_some; [keystream_statement | cbv beta]).
  reflexivity.
Qed.

Lemma well_sized_set_current c x :
  well_sized c ->
  well_sized (set_keystream c (set_current_block_index (keystream c) x)).
Proof. intros H. exact H. Qed.

Lemma well_sized_set_next_block c i :
  well_sized c -> well_sized (helix2_buffer_set_next_block c i).
Proof.
  intros [Hsz Hn]. split; [apply sized_set_next_block, Hsz|].
  rewrite nonce_set_next_block. exact Hn.
Qed.

Lemma checked_set_next_block_ok c i :
  well_sized c ->
  Checked.helix2_buffer_set_next_block rot c i = Some (helix2_buffer_set_next_block c i).
Proof.
  intros Hc. unfold Checked.helix2_buffer_set_next_block.
  rewrite set_next_block_def.
  apply checked_initialize_keystream_ok, well_sized_set_current, Hc.
Qed.

Lemma checked_next_block_ok c :
  well_sized c ->
  Checked.helix2_buffer_next_block rot c = Some (helix2_buffer_next_block c).
Proof. intros Hc. apply checked_set_next_block_ok, Hc. Qed.

Lemma checked_pack_key_ok key l :
  forall st,
    length st = 16%nat ->
    Forall (fun i => (2 + i < 16)%nat /\ (i * 4 + 3 < length key)%nat) l ->
    foldl (fun acc i => st ← acc; p ← Checked._pack4 key (i * 4); Checked.wr st (2 + i) p)
          (Some st) l
    = Some (foldl (fun st i => <[(2 + i)%nat := _pack4 key (i * 4)]> st) st l).
Proof.
  induction l as [|i l IH]; intros st Hst Hl; cbn [foldl]; [reflexivity|].
  inversion Hl as [|? ? [Hi Hk] Hl']; subst.
  cbn [mbind option_bind].
  rewrite checked_pack4_ok by exact Hk. cbn [mbind option_bind].
  rewrite checked_wr_ok by lia.
  apply IH; [rewrite length_insert; exact Hst | exact Hl'].
Qed.

Lemma length_pack_key key l :
  forall st,
    length (foldl (fun st i => <[(2 + i)%nat := _pack4 key (i * 4)]> st) st l) = length st.
Proof.
  induction l as [|i l IH]; intros st; cbn [foldl]; [reflexivity|].
  rewrite IH. apply length_insert.
Qed.

Lemma length_memcpy_ge dst src n :
  (n <= length src)%nat -> length dst = n -> length (memcpy dst src n) = n.
Proof.
  intros Hs Hd. unfold memcpy.
  rewrite length_app, length_take, drop_ge by lia. cbn [length]. lia.
Qed.

Ltac context_statement :=
  lazymatch goal with
  | |- Checked.wr _ _ _ = Some _ =>
      apply checked_wr_ok;
      repeat first [rewrite length_insert | rewrite length_pack_key
                   | rewrite length_replicate]; lia
  | |- Checked._pack4 _ _ = Some _ =>
      apply checked_pack4_ok;
      first [rewrite length_memcpy_ge by (rewrite ?length_replicate; lia || reflexivity); lia
            | vm_compute; lia]
  | |- Checked.memcpy _ _ _ = Some _ =>
      apply checked_memcpy_ok; rewrite ?length_replicate; lia
  end.

Lemma checked_initialize_context_ok K N :
  (32 <= length K)%nat -> (20 <= length N)%nat ->
  Checked.helix2_initialize_context rot K N = Some (helix2_initialize_context K N).
Proof.
  intros HK HN. rewrite initialize_context_unfold. cbv zeta.
  cbv beta zeta delta [Checked.helix2_initialize_context].
  do 6 (eapply bind_some; [context_statement | cbv beta]).
  eapply bind_some.
  { apply checked_pack_key_ok.
    - rewrite !length_insert, length_replicate. reflexivity.
    - rewrite length_memcpy_ge by (rewrite ?length_replicate; lia || reflexivity).
      repeat constructor; lia. }
  cbv beta.
  do 11 (eapply bind_some; [context_statement | cbv beta]).
  apply checked_set_next_block_ok. split; [split|]; proj_simpl.
  - rewrite !length_insert, length_pack_key, !length_insert, length_replicate. reflexivity.
  - apply length_replicate.
  - rewrite length_memcpy_ge by (rewrite ?length_replicate; lia || reflexivity). lia.
Qed.

Lemma checked_stream_byte_ok c k :
  well_sized c -> 0 <= k < 64 ->
  Checked.keystream_bytes (stream (keystream c)) k
  = Some (keystream_bytes (stream (keystream c)) k).
Proof. intros [[_ Hs] _] Hk. apply checked_keystream_bytes_ok; assumption. Qed.

Lemma checked_byte_ok c offset byte :
  well_sized c ->
  Checked.helix2_byte rot c offset byte = Some (helix2_byte c offset byte).
Proof.
  intros Hc. unfold Checked.helix2_byte, helix2_byte. cbv zeta. proj_simpl.
  rewrite u8_mod64.
  pose proof (Z.mod_pos_bound offset 64 ltac:(lia)) as Hm.
  destruct (Z.eqb (last_block_index (keystream c)) (offset / 64)).
  - eapply bind_some; [reflexivity | cbv beta].
    eapply bind_some; [|cbv beta; reflexivity].
    apply checked_stream_byte_ok; [apply well_sized_set_current, Hc | exact Hm].
  - eapply bind_some;
      [apply checked_set_next_block_ok, well_sized_set_current, Hc | cbv beta].
    eapply bind_some; [|cbv beta; reflexivity].
    apply checked_stream_byte_ok;
      [apply well_sized_set_next_block, well_sized_set_current, Hc | exact Hm].
Qed.

(** One iteration of the checked loop. *)
Lemma checked_buffer_loop_cons c b rest cb bo :
  Checked.helix2_buffer_loop rot c (b :: rest) cb bo =
  c1 ← (if Z.leb 64 bo
        then Checked.helix2_buffer_set_next_block rot c (u64 (cb + 1)) else Some c);
  k ← Checked.keystream_bytes (stream (keystream c1)) (if Z.leb 64 bo then 0 else bo);
  r ← Checked.helix2_buffer_loop rot c1 rest (if Z.leb 64 bo then u64 (cb + 1) else cb)
         (u8 ((if Z.leb 64 bo then 0 else bo) + 1));
  Some (fst r, u8 (Z.lxor b k) :: snd r).
Proof.
  cbn [Checked.helix2_buffer_loop].
  destruct (Z.leb 64 bo).
  - destruct (Checked.helix2_buffer_set_next_block rot c (u64 (cb + 1))) as [c1|];
      [|reflexivity].
    cbn [mbind option_bind].
    destruct (Checked.keystream_bytes (stream (keystream c1)) 0) as [k|]; [|reflexivity].
    destruct (Checked.helix2_buffer_loop rot c1 rest (u64 (cb + 1)) (u8 (0 + 1)))
      as [[c2 rest']|]; reflexivity.
  - cbn [mbind option_bind].
    destruct (Checked.keystream_bytes (stream (keystream c)) bo) as [k|]; [|reflexivity].
    destruct (Checked.helix2_buffer_loop rot c rest cb (u8 (bo + 1)))
      as [[c2 rest']|]; reflexivity.
Qed.

Lemma checked_buffer_loop_ok buffer :
  forall c cb bo,
    well_sized c -> 0 <= bo <= 64 ->
    Checked.helix2_buffer_loop rot c buffer cb bo = Some (helix2_buffer_loop c buffer cb bo).
Proof.
  induction buffer as [|b rest IH]; intros c cb bo Hc Hbo; [reflexivity|].
  rewrite helix2_buffer_loop_cons, checked_buffer_loop_cons. cbv zeta.
  destruct (Z.leb_spec 64 bo) as [Hge|Hlt].
  - assert (Hc1 := well_sized_set_next_block c (u64 (cb + 1)) Hc).
    eapply bind_some; [apply checked_set_next_block_ok, Hc | cbv beta].
    eapply bind_some; [apply checked_stream_byte_ok; [exact Hc1 | lia] | cbv beta].
    eapply bind_some; [apply IH; [exact Hc1 | rewrite u8_small; lia] | cbv beta].
    reflexivity.
  - eapply bind_some; [reflexivity | cbv beta].
    eapply bind_some; [apply checked_stream_byte_ok; [exact Hc | lia] | cbv beta].
    eapply bind_some; [apply IH; [exact Hc | rewrite u8_small; lia] | cbv beta].
    reflexivity.
Qed.

Lemma checked_buffer_ok c buffer start_offset :
  well_sized c ->
  Checked.helix2_buffer rot c buffer start_offset = Some (helix2_buffer c buffer start_offset).
Proof.
  intros Hc. unfold Checked.helix2_buffer, helix2_buffer. cbv zeta.
  rewrite u8_mod64.
  pose proof (Z.mod_pos_bound start_offset 64 ltac:(lia)) as Hm.
  destruct (Z.eqb (last_block_index (keystream c)) (start_offset / 64)).
  - eapply bind_some; [reflexivity | cbv beta].
    apply checked_buffer_loop_ok; [exact Hc | lia].
  - eapply bind_some; [apply checked_set_next_block_ok, Hc | cbv beta].
    apply checked_buffer_loop_ok; [apply well_sized_set_next_block, Hc | lia].
Qed.

Lemma reachable_well_sized K N c :
  (20 <= length N)%nat -> reachable K N c -> well_sized c.
Proof.
  intros HN Hc. destruct (reachable_coherent K N c Hc) as (i & _ & ->).
  split; [apply fresh_at_sized|].
  unfold fresh_at. rewrite nonce_set_next_block, nonce_initialize_context.
  rewrite length_memcpy_ge by (rewrite ?length_replicate; lia || reflexivity). lia.
Qed.

End CheckedCode.

Lemma checked_rotl32_listed x n :
  In n rotation_amounts -> Checked._rotl32 x n = Some (_rotl32 x n).
Proof.
  unfold rotation_amounts. cbn [In].
  intros [<-|[<-|[<-|[<-|[<-|[<-|[<-|[<-|[]]]]]]]]]; reflexivity.
Qed.

Lemma checked_rotl32_defined x n :
  Checked._rotl32 x n <> None <-> 1 <= n <= 31.
Proof.
  unfold Checked._rotl32, Checked.shift_defined.
  destruct (Z.leb_spec 0 n), (Z.ltb_spec n 32), (Z.leb_spec 0 (32 - n)),
    (Z.ltb_spec (32 - n) 32); cbn [andb]; split; intros Hn; try lia; try congruence.
Qed.

(** * Properties *)

(** C1. Known-answer vectors: after initialization with the all-zero key
    and the all-zero nonce, the first four bytes of keystream block 0 are
    14 84 EC FD; with the same nonce and a key whose only non-zero byte is
    the last one, set to 01, they are EF 71 CB C9. *)
Theorem known_answer_vectors :
  map (keystream_bytes (stream (keystream (helix2_initialize_context zero_key zero_nonce))))
      [0; 1; 2; 3]
  = [0x14; 0x84; 0xEC; 0xFD]
  /\
  map (keystream_bytes
         (stream (keystream (helix2_initialize_context (<[31%nat := 0x01]> zero_key) zero_nonce))))
      [0; 1; 2; 3]
  = [0xEF; 0x71; 0xCB; 0xC9].
Proof. split; vm_compute; reflexivity. Qed.

(** C2. Involution: for contexts [c1], [c2] built from the same key and
    nonce (and used in any way since), transforming a byte at an offset
    with [c1] and the result at the same offset with [c2] gives the byte
    back. *)
Theorem helix2_byte_involution K N c1 c2 offset b :
  reachable K N c1 -> reachable K N c2 -> is_u64 offset -> is_u8 b ->
  snd (helix2_byte c2 offset (snd (helix2_byte c1 offset b))) = b.
Proof.
  intros H1 H2 _ Hb.
  rewrite (helix2_byte_reachable K N c1), (helix2_byte_reachable K N c2) by assumption.
  cbn [snd]. apply xor_twice; [exact Hb | apply keystream_bytes_is_u8].
Qed.

Lemma helix2_byte_involution_witness :
  let K := <[31%nat := 0x01]> zero_key in
  let c1 := helix2_initialize_context K zero_nonce in
  let c2 := fst (helix2_buffer (helix2_initialize_context K zero_nonce) [1; 2; 3] 100) in
  reachable K zero_nonce c1 /\ reachable K zero_nonce c2 /\ is_u64 200 /\ is_u8 0x5A /\
  snd (helix2_byte c2 200 (snd (helix2_byte c1 200 0x5A))) = 0x5A.
Proof.
  intros K c1 c2.
  assert (R1 : reachable K zero_nonce c1) by apply reach_init.
  assert (R2 : reachable K zero_nonce c2)
    by (apply reach_buffer; [apply reach_init | unfold is_u64; lia]).
  assert (Ho : is_u64 200) by (unfold is_u64; lia).
  assert (Hb : is_u8 0x5A) by (unfold is_u8; lia).
  refine (conj R1 (conj R2 (conj Ho (conj Hb _)))).
  apply (helix2_byte_involution K zero_nonce c1 c2 200 0x5A R1 R2 Ho Hb).
Defined.

(** C3 (as stated, refuted). With the all-zero key and nonce, two zero
    bytes at start offset 2^64 - 1: [helix2_buffer] goes on to block 2^58
    and leaves 82, 194, while the second of two successive [helix2_byte]
    calls is at offset [(2^64 - 1) + 1 = 0] in [uint64_t], in block 0, and
    the two calls leave 82, 20. *)
Lemma helix2_buffer_differs_past_last_offset :
  is_u64 (2 ^ 64 - 1)
  /\ snd (helix2_buffer (helix2_initialize_context zero_key zero_nonce) [0; 0] (2 ^ 64 - 1))
     = [82; 194]
  /\ snd (helix2_byte_seq (helix2_initialize_context zero_key zero_nonce) [0; 0] (2 ^ 64 - 1))
     = [82; 20]
  /\ snd (helix2_buffer (helix2_initialize_context zero_key zero_nonce) [0; 0] (2 ^ 64 - 1))
     <> snd (helix2_byte_seq (helix2_initialize_context zero_key zero_nonce) [0; 0]
               (2 ^ 64 - 1)).
Proof.
  split; [unfold is_u64; lia|].
  split; [vm_compute; reflexivity|].
  split; [vm_compute; reflexivity|].
  vm_compute. discriminate.
Qed.

(** C3 (amended). Range/byte equivalence: for every context, buffer and
    start offset such that the offsets [start .. start + n - 1] exist as
    64-bit offsets ([start + n <= 2^64]), [helix2_buffer] leaves in the
    buffer exactly the bytes that [n] successive [helix2_byte] calls at
    those offsets return, whatever number of 64-byte block boundaries the
    range crosses. *)
Theorem helix2_buffer_equals_sequential_bytes c buffer start_offset :
  is_u64 start_offset ->
  start_offset + Z.of_nat (length buffer) <= 2 ^ 64 ->
  snd (helix2_buffer c buffer start_offset) = snd (helix2_byte_seq c buffer start_offset).
Proof.
  intros [H0 H1] Hlen. unfold helix2_buffer. cbv zeta.
  rewrite <- helix2_byte_seq_after_check, u8_mod64.
  pose proof (Z.mod_pos_bound start_offset 64 ltac:(lia)) as Hm.
  pose proof (Z.div_mod start_offset 64 ltac:(lia)) as Hd.
  set (cb := start_offset / HELIX2_KEYSTREAM_SIZE) in *.
  set (bo := start_offset mod 64) in *.
  assert (Hcb : 0 <= cb) by (apply Z.div_pos; lia).
  rewrite Hd.
  apply buffer_loop_byte_seq.
  - reflexivity.
  - destruct (Z.eqb_spec (last_block_index (keystream c)) cb) as [Heq|Hne];
      [exact Heq | apply last_set_next_block].
  - exact Hcb.
  - lia.
  - lia.
Qed.

Lemma helix2_buffer_equals_sequential_bytes_witness :
  let c := helix2_initialize_context zero_key zero_nonce in
  let buffer := map Z.of_nat (seq 0 100) in
  is_u64 30 /\ 30 + Z.of_nat (length buffer) <= 2 ^ 64 /\
  snd (helix2_buffer c buffer 30) = snd (helix2_byte_seq c buffer 30).
Proof.
  intros c buffer.
  assert (Ho : is_u64 30) by (unfold is_u64; lia).
  assert (Hlen : 30 + Z.of_nat (length buffer) <= 2 ^ 64)
    by (unfold buffer; rewrite length_map, length_seq; lia).
  refine (conj Ho (conj Hlen _)).
  apply (helix2_buffer_equals_sequential_bytes c buffer 30 Ho Hlen).
Defined.

(** C4 (as stated, refuted). With the all-zero key and nonce, one zero
    byte at offset 0 is transformed to 0x81 by the cache-less file and to
    0x14 by [src/helix2.c]: the two [helix2_buffer] functions are not
    byte-identical. *)
Lemma legacy_buffer_differs :
  snd (Legacy.helix2_buffer (Legacy.helix2_initialize_context zero_key zero_nonce) [0] 0)
  = [0x81]
  /\ snd (helix2_buffer (helix2_initialize_context zero_key zero_nonce) [0] 0) = [0x14]
  /\ snd (Legacy.helix2_buffer (Legacy.helix2_initialize_context zero_key zero_nonce) [0] 0)
     <> snd (helix2_buffer (helix2_initialize_context zero_key zero_nonce) [0] 0).
Proof.
  split; [vm_compute; reflexivity|].
  split; [vm_compute; reflexivity|].
  vm_compute. discriminate.
Qed.

(** C4 (amended). For every key, nonce, buffer and start offset whose range
    lies within the 64-bit offset space, each path equals the cache-free
    derivation from its own file's block function: byte [i] is XORed with
    byte [(start + i) mod 64] of block [(start + i) / 64] as a freshly
    constructed context generates it. For [src/helix2.c] this holds on
    every context reached through its exposed functions, so its cache
    check never changes the output; the cache-less file regenerates at
    every call. The outputs of the two files coincide wherever their block
    functions coincide on the bytes used. *)
Theorem buffer_paths_are_cache_free_derivations K N c buffer start_offset :
  reachable K N c ->
  is_u64 start_offset ->
  start_offset + Z.of_nat (length buffer) <= 2 ^ 64 ->
  snd (helix2_buffer c buffer start_offset)
    = xor_range (block_words K N) buffer start_offset
  /\ snd (Legacy.helix2_buffer (Legacy.helix2_initialize_context K N) buffer start_offset)
    = xor_range (legacy_block_words K N) buffer start_offset
  /\ (xor_range (legacy_block_words K N) buffer start_offset
        = xor_range (block_words K N) buffer start_offset ->
      snd (Legacy.helix2_buffer (Legacy.helix2_initialize_context K N) buffer start_offset)
        = snd (helix2_buffer c buffer start_offset)).
Proof.
  intros Hc [H0 H1] Hlen.
  destruct (reachable_coherent K N c Hc) as (i & _ & ->).
  assert (Hmain := helix2_buffer_fresh K N i buffer start_offset H0 Hlen).
  assert (Hleg := legacy_buffer_fresh K N (Legacy.helix2_initialize_context K N)
                    buffer start_offset (or_introl eq_refl) H0 Hlen).
  split; [exact Hmain | split; [exact Hleg |]].
  intros Heq. rewrite Hmain, Hleg. exact Heq.
Qed.

Lemma buffer_paths_are_cache_free_derivations_witness :
  let c := fst (helix2_byte (helix2_initialize_context zero_key zero_nonce) 1000 7) in
  let buffer := map Z.of_nat (seq 0 100) in
  reachable zero_key zero_nonce c /\ is_u64 30 /\
  30 + Z.of_nat (length buffer) <= 2 ^ 64 /\
  snd (helix2_buffer c buffer 30) = xor_range (block_words zero_key zero_nonce) buffer 30 /\
  snd (Legacy.helix2_buffer (Legacy.helix2_initialize_context zero_key zero_nonce) buffer 30)
    = xor_range (legacy_block_words zero_key zero_nonce) buffer 30.
Proof.
  intros c buffer.
  assert (Ho : is_u64 30) by (unfold is_u64; lia).
  assert (Hc : reachable zero_key zero_nonce c)
    by (apply reach_byte; [apply reach_init | unfold is_u64; lia]).
  assert (Hlen : 30 + Z.of_nat (length buffer) <= 2 ^ 64)
    by (unfold buffer; rewrite length_map, length_seq; lia).
  refine (conj Hc (conj Ho (conj Hlen _))).
  pose proof (buffer_paths_are_cache_free_derivations
                zero_key zero_nonce c buffer 30 Hc Ho Hlen) as (Ha & Hb & _).
  exact (conj Ha Hb).
Defined.

(** C5. Random-access independence and determinism: on any two contexts
    built from the same key and nonce, whatever calls each has served
    since, [helix2_byte] at offset [o] returns the same byte, namely the
    input XOR byte [o mod 64] of block [o / 64] of that key and nonce. *)
Theorem helix2_byte_history_independent K N c1 c2 offset b :
  reachable K N c1 -> reachable K N c2 -> is_u64 offset ->
  snd (helix2_byte c1 offset b) = snd (helix2_byte c2 offset b)
  /\ snd (helix2_byte c1 offset b)
     = u8 (Z.lxor b (keystream_bytes (block_words K N (offset / 64)) (offset mod 64))).
Proof.
  intros H1 H2 _.
  rewrite (helix2_byte_reachable K N c1), (helix2_byte_reachable K N c2) by assumption.
  split; reflexivity.
Qed.

Lemma helix2_byte_history_independent_witness :
  let c1 := helix2_initialize_context zero_key zero_nonce in
  let c2 := fst (helix2_byte_seq (helix2_initialize_context zero_key zero_nonce)
                   (replicate 130 0) 0) in
  reachable zero_key zero_nonce c1 /\ reachable zero_key zero_nonce c2 /\ is_u64 130 /\
  snd (helix2_byte c1 130 0x41) = snd (helix2_byte c2 130 0x41).
Proof.
  intros c1 c2.
  assert (R1 : reachable zero_key zero_nonce c1) by apply reach_init.
  assert (Ho : is_u64 130) by (unfold is_u64; lia).
  assert (R2 : reachable zero_key zero_nonce c2)
    by (apply reachable_byte_seq; [exact R1 | unfold is_u64; lia]).
  refine (conj R1 (conj R2 (conj Ho _))).
  apply (proj1 (helix2_byte_history_independent zero_key zero_nonce c1 c2 130 0x41 R1 R2 Ho)).
Defined.

(** C6. Block-index words: whenever a block with 64-bit index [i] is
    generated, state word 10 is the low 32 bits of [i] and state word 11 is
    the packed first four nonce bytes XOR the high 32 bits of [i]. With the
    all-zero key and nonce: block 0 gives word 10 = 0; block 0xFFFFFFFF
    gives word 10 = 0xFFFFFFFF and leaves word 11 at the nonce word;
    block 0x100000000 gives word 10 = 0 and word 11 = nonce word XOR 1. *)
Theorem block_index_words :
  (forall c i,
      length (state (keystream c)) = 16%nat -> is_u64 i ->
      let c' := helix2_buffer_set_next_block c i in
      rd (state (keystream c')) 10 = i mod 2 ^ 32 /\
      rd (state (keystream c')) 11 = Z.lxor (_pack4 (nonce c) 0) (i / 2 ^ 32))
  /\
  (let c0 := helix2_initialize_context zero_key zero_nonce in
   let word k i := rd (state (keystream (helix2_buffer_set_next_block c0 i))) k in
   word 10%nat 0 = 0x00000000 /\ word 11%nat 0 = 0 /\
   word 10%nat 0xFFFFFFFF = 0xFFFFFFFF /\ word 11%nat 0xFFFFFFFF = 0 /\
   word 10%nat 0x100000000 = 0x00000000 /\ word 11%nat 0x100000000 = 1 /\
   Z.lxor (word 11%nat 0x100000000) (word 11%nat 0) = 1).
Proof.
  split.
  - intros c i Hlen Hi c'. subst c'. rewrite set_next_block_unfold. cbv zeta. proj_simpl.
    unfold block_state. split.
    + rewrite rd_insert_ne by lia. rewrite rd_insert_eq by lia. apply low_word.
    + rewrite rd_insert_eq by (rewrite length_insert; lia).
      rewrite high_word by exact Hi. reflexivity.
  - vm_compute. repeat split.
Qed.

Lemma block_index_words_witness :
  let c := helix2_initialize_context (<[31%nat := 0x01]> zero_key) (<[0%nat := 0x12]> zero_nonce) in
  let i := 0x0000040000000000 in
  length (state (keystream c)) = 16%nat /\ is_u64 i /\
  rd (state (keystream (helix2_buffer_set_next_block c i))) 10 = 0 /\
  rd (state (keystream (helix2_buffer_set_next_block c i))) 11 = Z.lxor 0x12 0x400.
Proof.
  intros c i.
  assert (Hlen : length (state (keystream c)) = 16%nat) by (vm_compute; reflexivity).
  assert (Hi : is_u64 i) by (unfold is_u64, i; lia).
  refine (conj Hlen (conj Hi _)).
  exact (proj1 block_index_words c i Hlen Hi).
Defined.

(** C7. Block generation: [_helix2_initialize_keystream] computes the
    specification's [generate_block]. On a working copy of the state with
    words 10 and 11 set from the block index it runs round 1 ([mix] on the
    four rows, the four columns, the four diagonals, each [mix] being the
    eight add-rotate-xor sub-steps with rotations 9, 13, 18, 22, 7, 21, 11,
    16 modulo 2^32), adds the per-block state word-wise, runs the same
    row, column, diagonal sequence again, adds the per-block state again;
    the bytes the transforms read from the result are the sixteen words
    serialised low-order byte first. *)
Theorem initialize_keystream_is_generate_block c :
  sized c -> is_u64 (current_block_index (keystream c)) ->
  let c' := _helix2_initialize_keystream c in
  let seed := state (keystream c) in
  let nonce_word := _pack4 (nonce c) 0 in
  let i := current_block_index (keystream c) in
  state (keystream c') = Spec.per_block_state seed nonce_word i
  /\ stream (keystream c') = Spec.generate_words seed nonce_word i
  /\ length (Spec.generate_block seed nonce_word i) = 64%nat
  /\ forall k, 0 <= k < 64 ->
       keystream_bytes (stream (keystream c')) k =
       rd (Spec.generate_block seed nonce_word i) (Z.to_nat k).
Proof.
  intros [Hst Hs] Hi. cbv zeta.
  rewrite initialize_keystream_unfold. cbv zeta. proj_simpl.
  rewrite block_state_spec by exact Hi.
  set (per_block := Spec.per_block_state _ _ _).
  assert (Hpb : length per_block = 16%nat).
  { unfold per_block, Spec.per_block_state. rewrite !length_insert. exact Hst. }
  rewrite (memcpy_whole _ per_block 16 Hpb Hs).
  rewrite (block_mix_spec per_block per_block Hpb Hpb).
  assert (Hwords : Spec.generate_words (state (keystream c)) (_pack4 (nonce c) 0)
                     (current_block_index (keystream c))
                   = Spec.add_words (Spec.round (Spec.add_words (Spec.round per_block) per_block))
                       per_block) by reflexivity.
  assert (Hlw : length (Spec.add_words
                          (Spec.round (Spec.add_words (Spec.round per_block) per_block))
                          per_block) = 16%nat).
  { apply length_add_words; [|exact Hpb]. rewrite length_round.
    apply length_add_words; [|exact Hpb]. rewrite length_round. exact Hpb. }
  unfold Spec.generate_block. rewrite Hwords.
  split; [reflexivity|]. split; [reflexivity|]. split.
  - rewrite length_le_bytes, Hlw. reflexivity.
  - intros k Hk. apply keystream_bytes_le. rewrite Hlw. lia.
Qed.

Lemma initialize_keystream_is_generate_block_witness :
  let c := helix2_initialize_context (<[31%nat := 0x01]> zero_key) zero_nonce in
  sized c /\ is_u64 (current_block_index (keystream c)) /\
  stream (keystream (_helix2_initialize_keystream c))
  = Spec.generate_words (state (keystream c)) (_pack4 (nonce c) 0)
      (current_block_index (keystream c)).
Proof.
  intros c.
  assert (Hsz : sized c) by (split; vm_compute; reflexivity).
  assert (Hi : is_u64 (current_block_index (keystream c))) by (vm_compute; split; congruence).
  refine (conj Hsz (conj Hi _)).
  exact (proj1 (proj2 (initialize_keystream_is_generate_block c Hsz Hi))).
Defined.



(** C9. Cache coherence: on every context returned by
    [helix2_initialize_context] or, afterwards, by [helix2_byte],
    [helix2_buffer], [helix2_buffer_set_next_block] or
    [helix2_buffer_next_block], the last-generated index equals the current
    index and the cached stream is the keystream block of that index. *)
Theorem cache_never_stale K N c :
  reachable K N c ->
  last_block_index (keystream c) = current_block_index (keystream c)
  /\ stream (keystream c) = block_words K N (current_block_index (keystream c))
  /\ is_u64 (current_block_index (keystream c)).
Proof.
  intros Hc. destruct (reachable_coherent K N c Hc) as (i & Hi & ->).
  rewrite stream_fresh, last_fresh, current_fresh.
  split; [reflexivity | split; [reflexivity | exact Hi]].
Qed.

Lemma cache_never_stale_witness :
  let c := helix2_buffer_next_block
             (fst (helix2_buffer (helix2_initialize_context zero_key zero_nonce)
                     (replicate 70 0xFF) 60)) in
  reachable zero_key zero_nonce c /\
  last_block_index (keystream c) = current_block_index (keystream c) /\
  stream (keystream c) = block_words zero_key zero_nonce (current_block_index (keystream c)).
Proof.
  intros c.
  assert (Hc : reachable zero_key zero_nonce c).
  { apply reach_next_block, reach_buffer; [apply reach_init | unfold is_u64; lia]. }
  pose proof (cache_never_stale zero_key zero_nonce c Hc) as (Ha & Hb & _).
  exact (conj Hc (conj Ha Hb)).
Defined.

(** C10. Totality and in-bounds access. Both shifts of [_rotl32] are
    defined exactly for amounts 1 .. 31, hence for each of 7, 9, 11, 13,
    16, 18, 21, 22 and for every operand, and neither for 0 nor for 32.
    The program never rotates by another amount: run with any rotation
    primitive that is defined on those eight amounts (even one defined on
    nothing else), with every array access and [memcpy] bounds-checked and
    every keystream byte read checked to lie in the 64-byte block,
    construction succeeds for a 32-byte key and a 20-byte nonce, and every
    exposed operation on every context reached from it succeeds, with the
    result of the unchecked program. *)
Theorem no_failure_on_constructed_context :
  (forall x n, In n rotation_amounts -> Checked._rotl32 x n = Some (_rotl32 x n))
  /\ (forall x n, Checked._rotl32 x n <> None <-> 1 <= n <= 31)
  /\ (forall rot : Z -> Z -> option Z,
        (forall x n, In n rotation_amounts -> rot x n = Some (_rotl32 x n)) ->
        forall K N,
          (32 <= length K)%nat -> (20 <= length N)%nat ->
          Checked.helix2_initialize_context rot K N = Some (helix2_initialize_context K N)
          /\ forall c,
              reachable K N c ->
              (forall offset byte,
                  Checked.helix2_byte rot c offset byte = Some (helix2_byte c offset byte))
              /\ (forall buffer start_offset,
                     Checked.helix2_buffer rot c buffer start_offset
                     = Some (helix2_buffer c buffer start_offset))
              /\ (forall block_index,
                     Checked.helix2_buffer_set_next_block rot c block_index
                     = Some (helix2_buffer_set_next_block c block_index))
              /\ Checked.helix2_buffer_next_block rot c = Some (helix2_buffer_next_block c)).
Proof.
  split; [exact checked_rotl32_listed|].
  split; [exact checked_rotl32_defined|].
  intros rot Hrot K N HK HN.
  split; [apply checked_initialize_context_ok; assumption|].
  intros c Hc. assert (Hw := reachable_well_sized K N c HN Hc).
  split; [intros offset byte; apply checked_byte_ok; assumption|].
  split; [intros buffer start_offset; apply checked_buffer_ok; assumption|].
  split; [intros block_index; apply checked_set_next_block_ok; assumption|].
  apply checked_next_block_ok; assumption.
Qed.

Lemma no_failure_on_constructed_context_witness :
  let c := fst (helix2_byte (helix2_initialize_context zero_key zero_nonce) 4096 0) in
  (forall x n, In n rotation_amounts -> Checked._rotl32 x n = Some (_rotl32 x n)) /\
  (32 <= length zero_key)%nat /\ (20 <= length zero_nonce)%nat /\
  reachable zero_key zero_nonce c /\
  Checked.helix2_buffer Checked._rotl32 c [1; 2; 3] 62 = Some (helix2_buffer c [1; 2; 3] 62).
Proof.
  intros c.
  pose proof no_failure_on_constructed_context as (Hrot & _ & Hops).
  assert (HK : (32 <= length zero_key)%nat) by (vm_compute; lia).
  assert (HN : (20 <= length zero_nonce)%nat) by (vm_compute; lia).
  assert (Hc : reachable zero_key zero_nonce c)
    by (apply reach_byte; [apply reach_init | unfold is_u64; lia]).
  refine (conj Hrot (conj HK (conj HN (conj Hc _)))).
  destruct (Hops Checked._rotl32 Hrot zero_key zero_nonce HK HN) as (_ & Hreach).
  exact (proj1 (proj2 (Hreach c Hc)) [1; 2; 3] 62).
Defined.

(** * Further auxiliary facts *)

(** ** Algebra of the cache-free derivation *)

Lemma xor_range_app blk l1 :
  forall l2 offset,
    xor_range blk (l1 ++ l2) offset =
    xor_range blk l1 offset ++ xor_range blk l2 (offset + Z.of_nat (length l1)).
Proof.
  induction l1 as [|b l1 IH]; intros l2 offset; cbn [app xor_range length].
  - f_equal. lia.
  - rewrite IH. cbn [app]. do 3 f_equal. lia.
Qed.

Lemma length_xor_range blk l : forall offset, length (xor_range blk l offset) = length l.
Proof.
  induction l as [|b l IH]; intros offset; cbn [xor_range length]; [reflexivity|].
  rewrite IH. reflexivity.
Qed.

Lemma xor_range_is_u8 blk l : forall offset, Forall is_u8 (xor_range blk l offset).
Proof.
  induction l as [|b l IH]; intros offset; cbn [xor_range]; constructor.
  - unfold is_u8, u8. apply Z.mod_pos_bound. lia.
  - apply IH.
Qed.

Lemma xor_range_involutive blk l :
  forall offset, Forall is_u8 l -> xor_range blk (xor_range blk l offset) offset = l.
Proof.
  induction l as [|b l IH]; intros offset Hl; cbn [xor_range]; [reflexivity|].
  inversion Hl as [|? ? Hb Hl']; subst.
  rewrite IH by exact Hl'. f_equal.
  apply xor_twice; [exact Hb | apply keystream_bytes_is_u8].
Qed.

Lemma u8_lxor_bytes b k : is_u8 b -> is_u8 k -> u8 (Z.lxor b k) = Z.lxor b k.
Proof. intros Hb Hk. rewrite u8_lxor, !u8_small by assumption. reflexivity. Qed.

Lemma xor_range_zip blk l :
  forall offset,
    Forall is_u8 l ->
    xor_range blk l offset =
    zip_with Z.lxor l (xor_range blk (replicate (length l) 0) offset).
Proof.
  induction l as [|b l IH]; intros offset Hl; cbn [xor_range length replicate zip_with];
    [reflexivity|].
  inversion Hl as [|? ? Hb Hl']; subst.
  rewrite <- IH by exact Hl'. f_equal.
  rewrite !u8_lxor_bytes by (try apply keystream_bytes_is_u8; try assumption; unfold is_u8; lia).
  rewrite Z.lxor_0_l. reflexivity.
Qed.

(** ** The range transform without an upper bound on the range *)

Lemma buffer_loop_fresh_full K N buffer :
  forall cb bo,
    0 <= cb -> 0 <= bo <= 64 ->
    64 * cb + bo + Z.of_nat (length buffer) < 2 ^ 65 ->
    helix2_buffer_loop (fresh_at K N cb) buffer cb bo =
    (fresh_at K N (match buffer with
                   | [] => cb
                   | _ :: _ => (64 * cb + bo + Z.of_nat (length buffer) - 1) / 64
                   end),
     xor_range (block_words K N) buffer (64 * cb + bo)).
Proof.
  induction buffer as [|b rest IH]; intros cb bo Hcb Hbo Hlen; [reflexivity|].
  rewrite helix2_buffer_loop_cons. cbv zeta. cbn [xor_range].
  cbn [length] in Hlen.
  destruct (Z.leb_spec 64 bo) as [Hge|Hlt].
  - assert (bo = 64) by lia. subst bo.
    rewrite (u64_small (cb + 1)) by lia.
    rewrite set_next_block_fresh, stream_fresh.
    rewrite (u8_small (0 + 1)) by lia.
    rewrite IH by lia. cbn [fst snd].
    replace (64 * cb + 64) with (64 * (cb + 1) + 0) by lia.
    rewrite block_of_offset, intra_of_offset by lia.
    f_equal; [|do 2 f_equal; lia].
    f_equal. destruct rest as [|b' rest'].
    + cbn [length]. symmetry.
      replace (64 * (cb + 1) + 0 + Z.of_nat 1 - 1) with (64 * (cb + 1) + 0) by lia.
      apply block_of_offset. lia.
    + f_equal. cbn [length]. lia.
  - rewrite stream_fresh, block_of_offset, intra_of_offset by lia.
    rewrite (u8_small (bo + 1)) by lia.
    rewrite IH by lia. cbn [fst snd].
    f_equal; [|do 2 f_equal; lia].
    f_equal. destruct rest as [|b' rest'].
    + cbn [length]. symmetry.
      replace (64 * cb + bo + Z.of_nat 1 - 1) with (64 * cb + bo) by lia.
      apply block_of_offset. lia.
    + f_equal. cbn [length]. lia.
Qed.

Lemma helix2_buffer_fresh_full K N i buffer start_offset :
  is_u64 start_offset ->
  Z.of_nat (length buffer) < 2 ^ 64 ->
  helix2_buffer (fresh_at K N i) buffer start_offset =
  (fresh_at K N (last_block_touched start_offset (length buffer)),
   xor_range (block_words K N) buffer start_offset).
Proof.
  intros [H0 H1] Hlen. unfold helix2_buffer. cbv zeta.
  rewrite ensure_fresh_buffer, u8_mod64.
  pose proof (Z.mod_pos_bound start_offset 64 ltac:(lia)) as Hm.
  pose proof (Z.div_mod start_offset 64 ltac:(lia)) as Hd.
  assert (Hcb : 0 <= start_offset / 64) by (apply Z.div_pos; lia).
  rewrite buffer_loop_fresh_full by lia.
  rewrite <- Hd. f_equal. f_equal.
  destruct buffer; reflexivity.
Qed.

Lemma helix2_buffer_reachable K N c buffer start_offset :
  reachable K N c ->
  is_u64 start_offset ->
  Z.of_nat (length buffer) < 2 ^ 64 ->
  helix2_buffer c buffer start_offset =
  (fresh_at K N (last_block_touched start_offset (length buffer)),
   xor_range (block_words K N) buffer start_offset).
Proof.
  intros Hc Hs Hlen. destruct (reachable_coherent K N c Hc) as (i & _ & ->).
  apply helix2_buffer_fresh_full; assumption.
Qed.

(** * Further properties *)

(** X1. Range round trip: transforming a buffer of bytes with
    [helix2_buffer] and transforming the result again at the same start
    offset, on contexts of the same key and nonce, gives the buffer back,
    for every 64-bit start offset and every length below 2^64. *)
Theorem helix2_buffer_round_trip K N c1 c2 buffer start_offset :
  reachable K N c1 -> reachable K N c2 ->
  is_u64 start_offset -> Z.of_nat (length buffer) < 2 ^ 64 ->
  Forall is_u8 buffer ->
  snd (helix2_buffer c2 (snd (helix2_buffer c1 buffer start_offset)) start_offset) = buffer.
Proof.
  intros Hc1 Hc2 Hs Hlen Hbytes.
  rewrite (helix2_buffer_reachable K N c1) by assumption. cbn [snd].
  rewrite (helix2_buffer_reachable K N c2)
    by (try assumption; rewrite length_xor_range; exact Hlen).
  cbn [snd]. apply xor_range_involutive, Hbytes.
Qed.

Lemma helix2_buffer_round_trip_witness :
  let c1 := helix2_initialize_context zero_key zero_nonce in
  let c2 := fst (helix2_byte (helix2_initialize_context zero_key zero_nonce) 777 0) in
  let buffer := map Z.of_nat (seq 0 200) in
  reachable zero_key zero_nonce c1 /\ reachable zero_key zero_nonce c2 /\
  is_u64 50 /\ Z.of_nat (length buffer) < 2 ^ 64 /\ Forall is_u8 buffer /\
  snd (helix2_buffer c2 (snd (helix2_buffer c1 buffer 50)) 50) = buffer.
Proof.
  intros c1 c2 buffer.
  assert (R1 : reachable zero_key zero_nonce c1) by apply reach_init.
  assert (R2 : reachable zero_key zero_nonce c2)
    by (apply reach_byte; [apply reach_init | unfold is_u64; lia]).
  assert (Ho : is_u64 50) by (unfold is_u64; lia).
  assert (Hlen : Z.of_nat (length buffer) < 2 ^ 64)
    by (unfold buffer; rewrite length_map, length_seq; lia).
  assert (Hb : Forall is_u8 buffer).
  { unfold buffer. apply Forall_forall. intros x Hx.
    apply list_elem_of_In, in_map_iff in Hx. destruct Hx as (k & <- & Hk).
    apply in_seq in Hk. unfold is_u8. lia. }
  refine (conj R1 (conj R2 (conj Ho (conj Hlen (conj Hb _))))).
  apply (helix2_buffer_round_trip zero_key zero_nonce c1 c2 buffer 50 R1 R2 Ho Hlen Hb).
Defined.

(** X2. Chunking: transforming a buffer in one [helix2_buffer] call gives
    the same bytes as transforming a first part and then, on the context
    the first call leaves, the rest at the advanced offset; when the rest
    is not empty the two ways also leave the same context. *)
Theorem helix2_buffer_chunks K N c buffer1 buffer2 start_offset :
  reachable K N c ->
  is_u64 start_offset ->
  is_u64 (start_offset + Z.of_nat (length buffer1)) ->
  Z.of_nat (length (buffer1 ++ buffer2)) < 2 ^ 64 ->
  let whole := helix2_buffer c (buffer1 ++ buffer2) start_offset in
  let first := helix2_buffer c buffer1 start_offset in
  let second :=
    helix2_buffer (fst first) buffer2 (start_offset + Z.of_nat (length buffer1)) in
  snd whole = snd first ++ snd second
  /\ (buffer2 <> [] -> fst whole = fst second).
Proof.
  intros Hc Hs Hs2 Hlen. cbv zeta.
  rewrite length_app in Hlen.
  rewrite (helix2_buffer_reachable K N c (buffer1 ++ buffer2))
    by (try assumption; rewrite length_app; lia).
  rewrite (helix2_buffer_reachable K N c buffer1) by (try assumption; lia).
  cbn [fst snd].
  rewrite helix2_buffer_fresh_full by (try assumption; lia).
  cbn [fst snd]. split; [apply xor_range_app|].
  intros Hne. f_equal. rewrite length_app.
  destruct buffer2 as [|b2 rest2]; [contradiction|].
  unfold last_block_touched. cbn [length].
  replace (length buffer1 + S (length rest2))%nat
    with (S (length buffer1 + length rest2)) by lia.
  f_equal. lia.
Qed.

Lemma helix2_buffer_chunks_witness :
  let c := helix2_initialize_context zero_key zero_nonce in
  let buffer1 := replicate 64 0x11 in
  let buffer2 := replicate 10 0x22 in
  reachable zero_key zero_nonce c /\ is_u64 0 /\
  is_u64 (0 + Z.of_nat (length buffer1)) /\
  Z.of_nat (length (buffer1 ++ buffer2)) < 2 ^ 64 /\
  snd (helix2_buffer c (buffer1 ++ buffer2) 0)
  = snd (helix2_buffer c buffer1 0)
    ++ snd (helix2_buffer (fst (helix2_buffer c buffer1 0)) buffer2
              (0 + Z.of_nat (length buffer1))).
Proof.
  intros c buffer1 buffer2.
  assert (R : reachable zero_key zero_nonce c) by apply reach_init.
  assert (H0 : is_u64 0) by (unfold is_u64; lia).
  assert (H1 : is_u64 (0 + Z.of_nat (length buffer1)))
    by (unfold buffer1; rewrite length_replicate; unfold is_u64; lia).
  assert (H2 : Z.of_nat (length (buffer1 ++ buffer2)) < 2 ^ 64)
    by (unfold buffer1, buffer2; rewrite length_app, !length_replicate; lia).
  refine (conj R (conj H0 (conj H1 (conj H2 _)))).
  exact (proj1 (helix2_buffer_chunks zero_key zero_nonce c buffer1 buffer2 0 R H0 H1 H2)).
Defined.

(** X3. The keystream does not depend on the data: the transform of a
    buffer of bytes is the byte-wise XOR of the buffer with the transform
    of as many zero bytes at the same offset. (So changing a bit of the
    input changes the same bit of the output and nothing else.) *)
Theorem helix2_buffer_xor_with_keystream K N c buffer start_offset :
  reachable K N c ->
  is_u64 start_offset -> Z.of_nat (length buffer) < 2 ^ 64 ->
  Forall is_u8 buffer ->
  snd (helix2_buffer c buffer start_offset) =
  zip_with Z.lxor buffer
    (snd (helix2_buffer c (replicate (length buffer) 0) start_offset)).
Proof.
  intros Hc Hs Hlen Hbytes.
  rewrite !(helix2_buffer_reachable K N c)
    by (try assumption; rewrite ?length_replicate; exact Hlen).
  cbn [snd]. apply xor_range_zip, Hbytes.
Qed.

Lemma helix2_buffer_xor_with_keystream_witness :
  let c := helix2_initialize_context zero_key zero_nonce in
  let buffer := [0x48; 0x65; 0x6C; 0x69; 0x78] in
  reachable zero_key zero_nonce c /\ is_u64 62 /\
  Z.of_nat (length buffer) < 2 ^ 64 /\ Forall is_u8 buffer /\
  snd (helix2_buffer c buffer 62) =
  zip_with Z.lxor buffer (snd (helix2_buffer c (replicate (length buffer) 0) 62)).
Proof.
  intros c buffer.
  assert (R : reachable zero_key zero_nonce c) by apply reach_init.
  assert (Ho : is_u64 62) by (unfold is_u64; lia).
  assert (Hlen : Z.of_nat (length buffer) < 2 ^ 64) by (cbn; lia).
  assert (Hb : Forall is_u8 buffer) by (repeat constructor; unfold is_u8; lia).
  refine (conj R (conj Ho (conj Hlen (conj Hb _)))).
  apply (helix2_buffer_xor_with_keystream zero_key zero_nonce c buffer 62 R Ho Hlen Hb).
Defined.

Lemma rd_xor_range blk l :
  forall offset i,
    (i < length l)%nat ->
    rd (xor_range blk l offset) i =
    u8 (Z.lxor (rd l i)
          (keystream_bytes (blk ((offset + Z.of_nat i) / 64)) ((offset + Z.of_nat i) mod 64))).
Proof.
  induction l as [|b l IH]; intros offset i Hi; cbn [length] in Hi; [lia|].
  destruct i as [|i]; cbn [xor_range].
  - change (Z.of_nat 0) with 0. rewrite Z.add_0_r. reflexivity.
  - change (rd (?x :: ?t) (S i)) with (rd t i).
    change (rd (b :: l) (S i)) with (rd l i).
    rewrite IH by lia.
    replace (offset + 1 + Z.of_nat i) with (offset + Z.of_nat (S i)) by lia.
    reflexivity.
Qed.

(** X4. [helix2_buffer] never wraps the byte offset: for every 64-bit
    start offset and every length below 2^64, byte [i] of the buffer is
    XORed with byte [(start + i) mod 64] of block [(start + i) / 64], the
    sum taken in the integers. Past offset 2^64 - 1 these are the blocks
    2^58 and above, which no [helix2_byte] offset addresses. *)
Theorem helix2_buffer_past_offset_space K N c buffer start_offset i :
  reachable K N c ->
  is_u64 start_offset -> Z.of_nat (length buffer) < 2 ^ 64 ->
  (i < length buffer)%nat ->
  rd (snd (helix2_buffer c buffer start_offset)) i =
  u8 (Z.lxor (rd buffer i)
        (keystream_bytes (block_words K N ((start_offset + Z.of_nat i) / 64))
                         ((start_offset + Z.of_nat i) mod 64))).
Proof.
  intros Hc Hs Hlen Hi.
  rewrite (helix2_buffer_reachable K N c) by assumption. cbn [snd].
  apply rd_xor_range, Hi.
Qed.

Lemma helix2_buffer_past_offset_space_witness :
  let c := helix2_initialize_context zero_key zero_nonce in
  reachable zero_key zero_nonce c /\ is_u64 (2 ^ 64 - 1) /\
  Z.of_nat (length [0; 0]) < 2 ^ 64 /\ (1 < length [0; 0])%nat /\
  rd (snd (helix2_buffer c [0; 0] (2 ^ 64 - 1))) 1 =
  u8 (Z.lxor 0 (keystream_bytes (block_words zero_key zero_nonce (2 ^ 58)) 0)).
Proof.
  intros c.
  assert (R : reachable zero_key zero_nonce c) by apply reach_init.
  assert (Ho : is_u64 (2 ^ 64 - 1)) by (unfold is_u64; lia).
  assert (Hlen : Z.of_nat (length [0; 0]) < 2 ^ 64) by (cbn; lia).
  assert (Hi : (1 < length [0; 0])%nat) by (cbn; lia).
  refine (conj R (conj Ho (conj Hlen (conj Hi _)))).
  exact (helix2_buffer_past_offset_space zero_key zero_nonce c [0; 0] (2 ^ 64 - 1) 1
           R Ho Hlen Hi).
Defined.

(** X5. What [helix2_buffer] leaves in the cache: the block of the last
    byte it transformed (of the start offset, for an empty buffer), with
    both index fields set to it. A range that ends exactly at a block
    boundary does not generate the following block. *)
Theorem helix2_buffer_leaves_last_block K N c buffer start_offset :
  reachable K N c ->
  is_u64 start_offset -> Z.of_nat (length buffer) < 2 ^ 64 ->
  let c' := fst (helix2_buffer c buffer start_offset) in
  let blk := last_block_touched start_offset (length buffer) in
  current_block_index (keystream c') = blk
  /\ last_block_index (keystream c') = blk
  /\ stream (keystream c') = block_words K N blk.
Proof.
  intros Hc Hs Hlen. cbv zeta.
  rewrite (helix2_buffer_reachable K N c) by assumption. cbn [fst].
  rewrite current_fresh, last_fresh, stream_fresh.
  split; [reflexivity | split; reflexivity].
Qed.

Lemma helix2_buffer_leaves_last_block_witness :
  let c := helix2_initialize_context zero_key zero_nonce in
  let buffer := replicate 64 0 in
  reachable zero_key zero_nonce c /\ is_u64 64 /\ Z.of_nat (length buffer) < 2 ^ 64 /\
  current_block_index (keystream (fst (helix2_buffer c buffer 64))) = 1.
Proof.
  intros c buffer.
  assert (R : reachable zero_key zero_nonce c) by apply reach_init.
  assert (Ho : is_u64 64) by (unfold is_u64; lia).
  assert (Hlen : Z.of_nat (length buffer) < 2 ^ 64)
    by (unfold buffer; rewrite length_replicate; lia).
  refine (conj R (conj Ho (conj Hlen _))).
  exact (proj1 (helix2_buffer_leaves_last_block zero_key zero_nonce c buffer 64 R Ho Hlen)).
Defined.

(** X6. Seeking composes: after two seeks only the second counts, and
    [helix2_buffer_next_block] after a seek to block [i] is a seek to block
    [(i + 1) mod 2^64]; from the last block, 2^64 - 1, it goes to block 0. *)
Theorem seek_composition K N c i j :
  reachable K N c ->
  helix2_buffer_set_next_block (helix2_buffer_set_next_block c i) j
  = helix2_buffer_set_next_block c j
  /\ helix2_buffer_next_block (helix2_buffer_set_next_block c i)
     = helix2_buffer_set_next_block c (u64 (i + 1))
  /\ helix2_buffer_next_block (helix2_buffer_set_next_block c (2 ^ 64 - 1))
     = helix2_buffer_set_next_block c 0.
Proof.
  intros Hc. destruct (reachable_coherent K N c Hc) as (i0 & _ & ->).
  assert (Hsz := fresh_at_sized K N i0).
  split; [apply set_next_block_twice, Hsz|].
  unfold helix2_buffer_next_block.
  rewrite !current_set_next_block, !set_next_block_twice by exact Hsz.
  split; reflexivity.
Qed.

Lemma seek_composition_witness :
  let c := helix2_initialize_context zero_key zero_nonce in
  reachable zero_key zero_nonce c /\
  helix2_buffer_next_block (helix2_buffer_set_next_block c (2 ^ 64 - 1))
  = helix2_buffer_set_next_block c 0.
Proof.
  intros c.
  assert (R : reachable zero_key zero_nonce c) by apply reach_init.
  refine (conj R _).
  exact (proj2 (proj2 (seek_composition zero_key zero_nonce c 0 0 R))).
Defined.

(** ** The state array, word by word *)

Lemma key_set_next_block c i : key (helix2_buffer_set_next_block c i) = key c.
Proof. rewrite set_next_block_unfold. reflexivity. Qed.

Lemma state_set_next_block c i :
  state (keystream (helix2_buffer_set_next_block c i)) =
  block_state (state (keystream c)) (nonce c) i.
Proof. rewrite set_next_block_unfold. reflexivity. Qed.

Lemma stream_set_next_block c i :
  sized c ->
  stream (keystream (helix2_buffer_set_next_block c i)) =
  block_mix (block_state (state (keystream c)) (nonce c) i)
            (block_state (state (keystream c)) (nonce c) i).
Proof.
  intros [Hst Hs]. rewrite set_next_block_unfold. cbv zeta. proj_simpl.
  rewrite memcpy_whole; [reflexivity | rewrite length_block_state; exact Hst | exact Hs].
Qed.

Lemma key_fresh K N i : key (fresh_at K N i) = memcpy (replicate 32 0) K 32.
Proof.
  unfold fresh_at. rewrite key_set_next_block, initialize_context_unfold. cbv zeta.
  rewrite key_set_next_block. reflexivity.
Qed.

Lemma nonce_fresh K N i : nonce (fresh_at K N i) = memcpy (replicate 20 0) N 20.
Proof. unfold fresh_at. rewrite nonce_set_next_block. apply nonce_initialize_context. Qed.

(** The sixteen state words of the context seeked to block [i]. *)
Lemma state_fresh K N i :
  state (keystream (fresh_at K N i)) =
  let key := memcpy (replicate 32 0) K 32 in
  let nonce := memcpy (replicate 20 0) N 20 in
  [ _pack4 magic_constant 0; _pack4 magic_constant 4;
    _pack4 key 0; _pack4 key 4; _pack4 key 8; _pack4 key 12;
    _pack4 key 16; _pack4 key 20; _pack4 key 24; _pack4 key 28;
    u32 (Z.land i 0xFFFFFFFF);
    Z.lxor (_pack4 nonce 0) (u32 (Z.land (Z.shiftr i 32) 0xFFFFFFFF));
    _pack4 nonce 4; _pack4 nonce 8; _pack4 nonce 12; _pack4 nonce 16 ].
Proof.
  unfold fresh_at. rewrite state_set_next_block.
  rewrite nonce_initialize_context.
  rewrite initialize_context_unfold. cbv zeta.
  rewrite state_set_next_block. proj_simpl.
  rewrite block_state_again. unfold block_state.
  cbv [replicate foldl seq insert list_insert Nat.add Nat.mul]. reflexivity.
Qed.

(** ** 32-bit ranges *)

Lemma is_u32_u32 x : is_u32 (u32 x).
Proof. unfold is_u32, u32. apply Z.mod_pos_bound. lia. Qed.

Lemma is_u32_add32 x y : is_u32 (add32 x y).
Proof. apply is_u32_u32. Qed.

Lemma u32_small x : is_u32 x -> u32 x = x.
Proof. intros H. unfold u32. apply Z.mod_small. exact H. Qed.

Lemma u32_lor a b : u32 (Z.lor a b) = Z.lor (u32 a) (u32 b).
Proof.
  unfold u32. apply Z.bits_inj'. intros n Hn.
  rewrite Z.lor_spec.
  destruct (Z.lt_ge_cases n 32) as [Hlt|Hge].
  - rewrite !Z.mod_pow2_bits_low by lia. apply Z.lor_spec.
  - rewrite !Z.mod_pow2_bits_high by lia. reflexivity.
Qed.

Lemma u32_lxor a b : u32 (Z.lxor a b) = Z.lxor (u32 a) (u32 b).
Proof.
  unfold u32. apply Z.bits_inj'. intros n Hn.
  rewrite Z.lxor_spec.
  destruct (Z.lt_ge_cases n 32) as [Hlt|Hge].
  - rewrite !Z.mod_pow2_bits_low by lia. apply Z.lxor_spec.
  - rewrite !Z.mod_pow2_bits_high by lia. reflexivity.
Qed.

Lemma is_u32_lor a b : is_u32 a -> is_u32 b -> is_u32 (Z.lor a b).
Proof.
  intros Ha Hb. rewrite <- (u32_small a Ha), <- (u32_small b Hb), <- u32_lor.
  apply is_u32_u32.
Qed.

Lemma is_u32_lxor a b : is_u32 a -> is_u32 b -> is_u32 (Z.lxor a b).
Proof.
  intros Ha Hb. rewrite <- (u32_small a Ha), <- (u32_small b Hb), <- u32_lxor.
  apply is_u32_u32.
Qed.

Lemma is_u32_pack4 a off : is_u32 (_pack4 a off).
Proof.
  unfold _pack4. cbv zeta.
  repeat apply is_u32_lor; try apply is_u32_u32. unfold is_u32. lia.
Qed.

Lemma add_state_u32 s st :
  length s = 16%nat -> length st = 16%nat -> Forall is_u32 (add_state s st).
Proof.
  intros Hs Hst. rewrite add_state_add_words by assumption.
  unfold Spec.add_words. explicit_words s. explicit_words st.
  cbn [zip_with]. repeat constructor; apply is_u32_add32.
Qed.

Lemma block_mix_u32 s st :
  length s = 16%nat -> length st = 16%nat -> Forall is_u32 (block_mix s st).
Proof.
  intros Hs Hst. unfold block_mix. cbv zeta.
  apply add_state_u32; [|exact Hst].
  repeat first [rewrite length_shuffle | rewrite length_add_state]. exact Hs.
Qed.

(** X7. The integers of the embedding stay machine integers: on every
    context reached through the exposed functions the state and the cached
    stream are sixteen words below 2^32 each, and both block indices are
    below 2^64. *)
Theorem context_words_in_range K N c :
  reachable K N c ->
  length (state (keystream c)) = 16%nat /\ Forall is_u32 (state (keystream c))
  /\ length (stream (keystream c)) = 16%nat /\ Forall is_u32 (stream (keystream c))
  /\ is_u64 (current_block_index (keystream c))
  /\ is_u64 (last_block_index (keystream c)).
Proof.
  intros Hc. destruct (reachable_coherent K N c Hc) as (i & Hi & ->).
  destruct (fresh_at_sized K N i) as [Hst Hs].
  rewrite current_fresh, last_fresh.
  split; [exact Hst|]. split.
  { rewrite state_fresh. cbv zeta.
    repeat constructor;
      first [apply is_u32_pack4 | apply is_u32_u32
            | apply is_u32_lxor; [apply is_u32_pack4 | apply is_u32_u32]]. }
  split; [exact Hs|]. split; [|split; exact Hi].
  unfold fresh_at. rewrite stream_set_next_block by apply initialize_context_sized.
  destruct (initialize_context_sized K N) as [Hst0 _].
  apply block_mix_u32; rewrite length_block_state; exact Hst0.
Qed.

Lemma context_words_in_range_witness :
  let c := fst (helix2_buffer (helix2_initialize_context zero_key zero_nonce)
                  (replicate 100 0xFF) 1000) in
  reachable zero_key zero_nonce c /\ Forall is_u32 (stream (keystream c)).
Proof.
  intros c.
  assert (R : reachable zero_key zero_nonce c)
    by (apply reach_buffer; [apply reach_init | unfold is_u64; lia]).
  refine (conj R _).
  exact (proj1 (proj2 (proj2 (proj2 (context_words_in_range zero_key zero_nonce c R))))).
Defined.

(** X8. What the operations never touch: on every context reached from
    [helix2_initialize_context (K, N)] the stored key is still the first 32
    bytes of [K], the stored nonce the first 20 bytes of [N], and every
    state word other than words 10 and 11 is what construction put there. *)
Theorem operations_keep_key_nonce_seed K N c :
  (32 <= length K)%nat -> (20 <= length N)%nat ->
  reachable K N c ->
  key c = take 32 K /\ nonce c = take 20 N
  /\ forall k, k <> 10%nat -> k <> 11%nat ->
       rd (state (keystream c)) k
       = rd (state (keystream (helix2_initialize_context K N))) k.
Proof.
  intros HK HN Hc. destruct (reachable_coherent K N c Hc) as (i & _ & ->).
  rewrite key_fresh, nonce_fresh. unfold memcpy.
  split; [apply app_nil_r|]. split; [apply app_nil_r|].
  intros k H10 H11.
  rewrite initialize_context_fresh, !state_fresh. cbv zeta.
  do 16 (destruct k as [|k]; [first [reflexivity | contradiction]|]).
  reflexivity.
Qed.

Lemma operations_keep_key_nonce_seed_witness :
  let c := helix2_buffer_next_block
             (fst (helix2_byte (helix2_initialize_context zero_key zero_nonce) 5000 1)) in
  (32 <= length zero_key)%nat /\ (20 <= length zero_nonce)%nat /\
  reachable zero_key zero_nonce c /\
  key c = take 32 zero_key /\ nonce c = take 20 zero_nonce.
Proof.
  intros c.
  assert (HK : (32 <= length zero_key)%nat) by (vm_compute; lia).
  assert (HN : (20 <= length zero_nonce)%nat) by (vm_compute; lia).
  assert (R : reachable zero_key zero_nonce c).
  { apply reach_next_block, reach_byte; [apply reach_init | unfold is_u64; lia]. }
  refine (conj HK (conj HN (conj R _))).
  pose proof (operations_keep_key_nonce_seed zero_key zero_nonce c HK HN R) as (Ha & Hb & _).
  exact (conj Ha Hb).
Defined.

(** ** The first nonce word and the high half of the block index *)

Lemma rd_app_l (l1 l2 : list Z) i : (i < length l1)%nat -> rd (l1 ++ l2) i = rd l1 i.
Proof. intros H. unfold rd. rewrite lookup_app_l by exact H. reflexivity. Qed.

Lemma rd_app_r (l1 l2 : list Z) i : rd (l1 ++ l2) (length l1 + i) = rd l2 i.
Proof.
  unfold rd. rewrite lookup_app_r by lia.
  replace (length l1 + i - length l1)%nat with i by lia. reflexivity.
Qed.

Lemma pack4_app_l (l1 l2 : list Z) off :
  (off + 3 < length l1)%nat -> _pack4 (l1 ++ l2) off = _pack4 l1 off.
Proof. intros H. unfold _pack4. rewrite !rd_app_l by lia. reflexivity. Qed.

Lemma pack4_app_r (l1 l2 : list Z) off :
  _pack4 (l1 ++ l2) (length l1 + off) = _pack4 l2 off.
Proof.
  unfold _pack4.
  rewrite <- !Nat.add_assoc, !rd_app_r. reflexivity.
Qed.

Lemma pack4_skip4 (l1 l2 : list Z) off off' :
  length l1 = 4%nat -> off = (4 + off')%nat -> _pack4 (l1 ++ l2) off = _pack4 l2 off'.
Proof. intros H ->. rewrite <- H. apply pack4_app_r. Qed.

(** The nonce copy of a context built from a nonce given as its first four
    bytes followed by the rest. *)
Lemma memcpy_nonce_split (n0 rest : list Z) :
  length n0 = 4%nat ->
  memcpy (replicate 20 0) (n0 ++ rest) 20 = n0 ++ take 16 rest.
Proof.
  intros H. unfold memcpy.
  rewrite take_app, H. change (20 - 4)%nat with 16%nat.
  rewrite (take_ge n0) by lia. apply app_nil_r.
Qed.

(** X9. The first four nonce bytes and the high 32 bits of the block index
    enter the generator only through their XOR: two nonces that differ in
    their first four bytes only give the same keystream block at block
    indices whose low halves agree and whose high halves differ by the XOR
    of the two packed nonce words. *)
Theorem nonce_word_aliases_block_index K n0 n0' rest i i' :
  length n0 = 4%nat -> length n0' = 4%nat ->
  is_u64 i -> is_u64 i' ->
  i mod 2 ^ 32 = i' mod 2 ^ 32 ->
  Z.lxor (_pack4 n0 0) (i / 2 ^ 32) = Z.lxor (_pack4 n0' 0) (i' / 2 ^ 32) ->
  block_words K (n0 ++ rest) i = block_words K (n0' ++ rest) i'.
Proof.
  intros Hn Hn' Hi Hi' Hlow Hhigh.
  rewrite <- !stream_fresh. unfold fresh_at.
  rewrite !stream_set_next_block by apply initialize_context_sized.
  assert (Hst : block_state (state (keystream (helix2_initialize_context K (n0 ++ rest))))
                  (nonce (helix2_initialize_context K (n0 ++ rest))) i
                = block_state (state (keystream (helix2_initialize_context K (n0' ++ rest))))
                    (nonce (helix2_initialize_context K (n0' ++ rest))) i').
  { rewrite <- !state_set_next_block.
    change (state (keystream (fresh_at K (n0 ++ rest) i))
            = state (keystream (fresh_at K (n0' ++ rest) i'))).
    rewrite !state_fresh. cbv zeta.
    rewrite !memcpy_nonce_split by assumption.
    rewrite !(pack4_app_l n0), !(pack4_app_l n0') by lia.
    rewrite !(pack4_skip4 n0 _ 4 0), !(pack4_skip4 n0 _ 8 4), !(pack4_skip4 n0 _ 12 8),
      !(pack4_skip4 n0 _ 16 12) by (assumption || reflexivity).
    rewrite !(pack4_skip4 n0' _ 4 0), !(pack4_skip4 n0' _ 8 4), !(pack4_skip4 n0' _ 12 8),
      !(pack4_skip4 n0' _ 16 12) by (assumption || reflexivity).
    rewrite !high_word, !(low_word i), !(low_word i') by assumption.
    rewrite Hlow, Hhigh. reflexivity. }
  rewrite Hst. reflexivity.
Qed.

Lemma nonce_word_aliases_block_index_witness :
  let rest := replicate 16 0 in
  length [0; 0; 0; 0] = 4%nat /\ length [1; 0; 0; 0] = 4%nat /\
  is_u64 (2 ^ 32) /\ is_u64 0 /\ 2 ^ 32 mod 2 ^ 32 = 0 mod 2 ^ 32 /\
  Z.lxor (_pack4 [0; 0; 0; 0] 0) (2 ^ 32 / 2 ^ 32) = Z.lxor (_pack4 [1; 0; 0; 0] 0) (0 / 2 ^ 32) /\
  block_words zero_key ([0; 0; 0; 0] ++ rest) (2 ^ 32)
  = block_words zero_key ([1; 0; 0; 0] ++ rest) 0.
Proof.
  intros rest.
  assert (H1 : length [0; 0; 0; 0] = 4%nat) by reflexivity.
  assert (H2 : length [1; 0; 0; 0] = 4%nat) by reflexivity.
  assert (H3 : is_u64 (2 ^ 32)) by (unfold is_u64; lia).
  assert (H4 : is_u64 0) by (unfold is_u64; lia).
  assert (H5 : 2 ^ 32 mod 2 ^ 32 = 0 mod 2 ^ 32) by reflexivity.
  assert (H6 : Z.lxor (_pack4 [0; 0; 0; 0] 0) (2 ^ 32 / 2 ^ 32)
               = Z.lxor (_pack4 [1; 0; 0; 0] 0) (0 / 2 ^ 32)) by reflexivity.
  refine (conj H1 (conj H2 (conj H3 (conj H4 (conj H5 (conj H6 _)))))).
  exact (nonce_word_aliases_block_index zero_key [0; 0; 0; 0] [1; 0; 0; 0] rest
           (2 ^ 32) 0 H1 H2 H3 H4 H5 H6).
Defined.

(** ** The command-line tool *)

(** *** The read-transform-write loop *)

Lemma process_loop_reachable K N fuel :
  forall c fin fout file_offset,
    reachable K N c ->
    0 <= file_offset ->
    file_offset + Z.of_nat (length fin) < 2 ^ 64 ->
    (length fin < fuel)%nat ->
    exists c',
      reachable K N c' /\
      Tool.process_loop fuel c fin fout file_offset =
      Some (c', fout ++ xor_range (block_words K N) fin file_offset,
            file_offset + Z.of_nat (length fin)).
Proof.
  induction fuel as [|fuel IH]; intros c fin fout file_offset Hc H0 Hlen Hfuel; [lia|].
  cbn [Tool.process_loop]. cbv zeta.
  destruct (Z.ltb_spec 0 (Z.of_nat (length (take 1024 fin)))) as [Hpos|Hzero].
  - rewrite (helix2_buffer_reachable K N c)
      by (try assumption; rewrite ?length_take; unfold is_u64; lia).
    rewrite length_take in Hpos.
    destruct (IH (fresh_at K N (last_block_touched file_offset (length (take 1024 fin))))
                 (drop 1024 fin)
                 (fout ++ xor_range (block_words K N) (take 1024 fin) file_offset)
                 (u64 (file_offset + Z.of_nat (length (take 1024 fin)))))
      as (c' & Hc' & Heq).
    + assert (R : reachable K N (fst (helix2_buffer c (take 1024 fin) file_offset)))
        by (apply reach_buffer; [exact Hc | unfold is_u64; lia]).
      rewrite (helix2_buffer_reachable K N c) in R
        by (try assumption; rewrite ?length_take; unfold is_u64; lia).
      exact R.
    + apply u64_is_u64.
    + rewrite u64_small, length_take, length_drop by (rewrite ?length_take; lia). lia.
    + rewrite length_drop. lia.
    + exists c'. split; [exact Hc'|]. rewrite Heq.
      rewrite u64_small, length_take, length_drop by (rewrite ?length_take; lia).
      rewrite <- app_assoc.
      assert (Hx : xor_range (block_words K N) fin file_offset =
                   xor_range (block_words K N) (take 1024 fin) file_offset ++
                   xor_range (block_words K N) (drop 1024 fin)
                     (file_offset + Z.of_nat (1024 `min` length fin))).
      { rewrite <- (take_drop 1024 fin) at 1.
        rewrite xor_range_app, length_take. reflexivity. }
      rewrite Hx. do 2 f_equal. lia.
  - assert (Hnil : fin = []).
    { rewrite length_take in Hzero. destruct fin; [reflexivity | cbn [length] in Hzero; lia]. }
    subst fin. exists c. split; [exact Hc|].
    cbn [xor_range length]. rewrite app_nil_r. do 2 f_equal. lia.
Qed.

(** *** Bit-level facts used by the key derivation *)

Lemma is_u32_shiftr z k : is_u32 z -> 0 <= k -> is_u32 (Z.shiftr z k).
Proof.
  unfold is_u32. intros [H0 H1] Hk. rewrite Z.shiftr_div_pow2 by lia.
  assert (0 < 2 ^ k) by (apply Z.pow_pos_nonneg; lia).
  split; [apply Z.div_pos; lia|].
  apply Z.le_lt_trans with z; [|exact H1].
  apply Z.div_le_upper_bound; nia.
Qed.

Lemma low_byte_bits w s m :
  0 <= s ->
  Z.testbit (Z.land (Z.shiftr w s) 0xFF) m =
  if (0 <=? m) && (m <? 8) then Z.testbit w (m + s) else false.
Proof.
  intros Hs. change 0xFF with (Z.ones 8). rewrite Z.land_ones by lia.
  destruct (Z.leb_spec 0 m) as [H0|H0]; cbn [andb].
  - destruct (Z.ltb_spec m 8) as [H8|H8].
    + rewrite Z.mod_pow2_bits_low by lia. apply Z.shiftr_spec. lia.
    + apply Z.mod_pow2_bits_high. lia.
  - apply Z.testbit_neg_r. lia.
Qed.

Lemma is_u8_low_byte w : is_u8 (Z.land w 0xFF).
Proof.
  unfold is_u8. change 0xFF with (Z.ones 8). rewrite Z.land_ones by lia.
  apply Z.mod_pos_bound. lia.
Qed.

(** Packing the four little-endian bytes of a word gives the word back. *)
Lemma lor_le_bytes w :
  is_u32 w ->
  Z.lor (Z.lor (Z.lor (Z.lor 0 (u32 (Z.shiftl (Z.land w 0xFF) (0 * 8))))
                      (u32 (Z.shiftl (Z.land (Z.shiftr w 8) 0xFF) (1 * 8))))
               (u32 (Z.shiftl (Z.land (Z.shiftr w 16) 0xFF) (2 * 8))))
        (u32 (Z.shiftl (Z.land (Z.shiftr w 24) 0xFF) (3 * 8))) = w.
Proof.
  intros Hw. apply Z.bits_inj'. intros n Hn.
  rewrite <- (Z.shiftr_0_r w) at 1. unfold u32.
  rewrite !Z.lor_spec, Z.bits_0. cbn [orb].
  destruct (Z.lt_ge_cases n 32) as [Hlt|Hge].
  - rewrite !Z.mod_pow2_bits_low by lia.
    rewrite !Z.shiftl_spec by lia.
    rewrite !low_byte_bits by lia.
    repeat match goal with
           | |- context [?a <=? ?b] => destruct (Z.leb_spec a b)
           | |- context [?a <? ?b] => destruct (Z.ltb_spec a b)
           end; cbn [andb orb]; try lia;
      rewrite ?Bool.orb_false_r; f_equal; lia.
  - rewrite !Z.mod_pow2_bits_high by lia. cbn [orb].
    symmetry. apply (u32_high_bits w n Hw). lia.
Qed.

Lemma xorshift16_involutive z :
  is_u32 z ->
  Z.lxor (Z.lxor z (Z.shiftr z 16)) (Z.shiftr (Z.lxor z (Z.shiftr z 16)) 16) = z.
Proof.
  intros Hz. apply Z.bits_inj'. intros n Hn.
  rewrite !Z.lxor_spec, !Z.shiftr_spec, Z.lxor_spec, !Z.shiftr_spec by lia.
  rewrite (u32_high_bits z (n + 16 + 16) Hz) by lia.
  destruct (Z.testbit z n), (Z.testbit z (n + 16)); reflexivity.
Qed.

Lemma xorshift15_inverse z :
  is_u32 z ->
  Z.lxor (Z.lxor (Z.lxor z (Z.shiftr z 15)) (Z.shiftr (Z.lxor z (Z.shiftr z 15)) 15))
         (Z.shiftr (Z.lxor z (Z.shiftr z 15)) 30) = z.
Proof.
  intros Hz. apply Z.bits_inj'. intros n Hn.
  rewrite !Z.lxor_spec, !Z.shiftr_spec, !Z.lxor_spec, !Z.shiftr_spec by lia.
  rewrite (u32_high_bits z (n + 30 + 15) Hz) by lia.
  replace (n + 15 + 15) with (n + 30) by lia.
  destruct (Z.testbit z n), (Z.testbit z (n + 15)), (Z.testbit z (n + 30)); reflexivity.
Qed.

Lemma xorshift16_injective a b :
  is_u32 a -> is_u32 b ->
  Z.lxor a (Z.shiftr a 16) = Z.lxor b (Z.shiftr b 16) -> a = b.
Proof.
  intros Ha Hb H.
  rewrite <- (xorshift16_involutive a Ha), <- (xorshift16_involutive b Hb), H.
  reflexivity.
Qed.

Lemma xorshift15_injective a b :
  is_u32 a -> is_u32 b ->
  Z.lxor a (Z.shiftr a 15) = Z.lxor b (Z.shiftr b 15) -> a = b.
Proof.
  intros Ha Hb H.
  rewrite <- (xorshift15_inverse a Ha), <- (xorshift15_inverse b Hb), H.
  reflexivity.
Qed.

(** Multiplication by an odd constant is a permutation of the 32-bit words. *)
Lemma mul32_injective c cinv a b :
  u32 (c * cinv) = 1 -> is_u32 a -> is_u32 b ->
  u32 (a * c) = u32 (b * c) -> a = b.
Proof.
  intros Hc Ha Hb H.
  assert (E : forall x, is_u32 x -> u32 (u32 (x * c) * cinv) = x).
  { intros x Hx. unfold u32 in *. rewrite Z.mul_mod_idemp_l by lia.
    rewrite <- Z.mul_assoc, <- Z.mul_mod_idemp_r by lia.
    rewrite Hc, Z.mul_1_r. apply Z.mod_small. exact Hx. }
  transitivity (u32 (u32 (a * c) * cinv)); [symmetry; apply E; exact Ha|].
  rewrite H. apply E. exact Hb.
Qed.

Lemma add32_injective x y k :
  is_u32 x -> is_u32 y -> add32 x k = add32 y k -> x = y.
Proof.
  unfold add32, u32, is_u32. change (2 ^ 32) with 4294967296.
  intros Hx Hy H. Z.div_mod_to_equations. lia.
Qed.

Lemma lxor_injective k x y : Z.lxor k x = Z.lxor k y -> x = y.
Proof.
  intros H. apply (f_equal (Z.lxor k)) in H.
  rewrite <- !Z.lxor_assoc, Z.lxor_nilpotent, !Z.lxor_0_l in H. exact H.
Qed.

Lemma rotl32_injective x y n :
  is_u32 x -> is_u32 y -> 0 < n < 32 -> _rotl32 x n = _rotl32 y n -> x = y.
Proof.
  intros Hx Hy Hn H. apply Z.bits_inj'. intros j Hj.
  destruct (Z.lt_ge_cases j 32) as [Hlt|Hge].
  - assert (B : forall z, is_u32 z -> Z.testbit z j = Z.testbit (_rotl32 z n) ((j + n) mod 32)).
    { intros z Hz.
      assert (0 <= (j + n) mod 32 < 32) by (apply Z.mod_pos_bound; lia).
      rewrite rotl32_bits by (try assumption; lia).
      destruct (Z.ltb_spec ((j + n) mod 32) 32); [|lia].
      rewrite Zminus_mod_idemp_l. replace (j + n - n) with j by lia.
      rewrite Z.mod_small by lia. reflexivity. }
    rewrite (B x Hx), (B y Hy), H. reflexivity.
  - rewrite (u32_high_bits x j Hx), (u32_high_bits y j Hy) by lia. reflexivity.
Qed.

(** *** The mixing function of the key derivation *)

Lemma mix32_zero : Tool.mix32 0 = 0.
Proof. reflexivity. Qed.

Lemma is_u32_mix32 z : is_u32 (Tool.mix32 z).
Proof.
  unfold Tool.mix32. cbv zeta.
  apply is_u32_lxor; [apply is_u32_u32 | apply is_u32_shiftr; [apply is_u32_u32 | lia]].
Qed.

Lemma mix32_injective_u32 a b :
  is_u32 a -> is_u32 b -> Tool.mix32 a = Tool.mix32 b -> a = b.
Proof.
  intros Ha Hb H. unfold Tool.mix32 in H. cbv zeta in H.
  assert (X16 : forall z, is_u32 z -> is_u32 (Z.lxor z (Z.shiftr z 16)))
    by (intros z Hz; apply is_u32_lxor; [exact Hz | apply is_u32_shiftr; [exact Hz | lia]]).
  assert (X15 : forall z, is_u32 z -> is_u32 (Z.lxor z (Z.shiftr z 15)))
    by (intros z Hz; apply is_u32_lxor; [exact Hz | apply is_u32_shiftr; [exact Hz | lia]]).
  apply xorshift16_injective in H; try apply is_u32_u32.
  apply (mul32_injective _ 0x43021123) in H;
    [| reflexivity | apply X15, is_u32_u32 | apply X15, is_u32_u32].
  apply xorshift15_injective in H; try apply is_u32_u32.
  apply (mul32_injective _ 0x1d69e2a5) in H;
    [| reflexivity | apply X16, Ha | apply X16, Hb].
  apply xorshift16_injective in H; assumption.
Qed.

(** *** The three loops of [derive_key_from_password] *)

Lemma length_password_loop pw :
  forall i st kw, length (snd (Tool.password_loop pw i st kw)) = length kw.
Proof.
  induction pw as [|ch pw IH]; intros i st kw; cbn [Tool.password_loop]; [reflexivity|].
  cbv zeta. rewrite IH, length_insert. reflexivity.
Qed.

(** While the index has not wrapped, the loop writes the words
    [i .. i + length pw - 1] and no other. *)
Lemma password_loop_untouched pw :
  forall i st kw k,
    (i + length pw <= 8)%nat -> (k < i \/ i + length pw <= k)%nat ->
    rd (snd (Tool.password_loop pw i st kw)) k = rd kw k.
Proof.
  induction pw as [|ch pw IH]; intros i st kw k H8 Hk; cbn [Tool.password_loop];
    [reflexivity|].
  cbv zeta. cbn [length] in H8, Hk.
  rewrite IH by lia. rewrite Nat.mod_small by lia. apply rd_insert_ne. lia.
Qed.

Lemma password_loop_u32 pw :
  forall i st kw,
    is_u32 st -> Forall is_u32 kw ->
    Forall is_u32 (snd (Tool.password_loop pw i st kw)).
Proof.
  induction pw as [|ch pw IH]; intros i st kw Hst Hkw; cbn [Tool.password_loop];
    [exact Hkw|].
  cbv zeta. apply IH; [apply is_u32_add32|].
  apply Forall_insert; [exact Hkw|].
  apply is_u32_lxor; [|apply is_u32_add32].
  unfold rd. destruct (kw !! (i mod 8)%nat) as [x|] eqn:E; cbn [default].
  - exact (proj1 (Forall_lookup _ _) Hkw _ _ E).
  - unfold is_u32. lia.
Qed.

Lemma strengthen_map kw :
  length kw = 8%nat ->
  Tool.strengthen kw =
  (fun w => Tool.mix32 (Tool.mix32 (Tool.mix32 (Tool.mix32 w)))) <$> kw.
Proof.
  intros H. do 9 (destruct kw as [|? kw]; try discriminate H).
  cbv -[Tool.mix32]. reflexivity.
Qed.

Lemma derived_key_words_eq pw :
  Tool.derived_key_words pw =
  Tool.strengthen (snd (Tool.password_loop pw 0 0x9E3779B9 (replicate 8 0))).
Proof.
  unfold Tool.derived_key_words. cbv zeta.
  destruct (Tool.password_loop pw 0 0x9E3779B9 (replicate 8 0)). reflexivity.
Qed.

Lemma length_derived_key_words pw : length (Tool.derived_key_words pw) = 8%nat.
Proof.
  rewrite derived_key_words_eq, strengthen_map, length_fmap, length_password_loop;
    [reflexivity|].
  rewrite length_password_loop. reflexivity.
Qed.

Lemma derived_key_words_u32 pw : Forall is_u32 (Tool.derived_key_words pw).
Proof.
  rewrite derived_key_words_eq, strengthen_map
    by (rewrite length_password_loop; reflexivity).
  apply Forall_fmap, Forall_true. intros w. apply is_u32_mix32.
Qed.

Lemma rd_fmap (f : Z -> Z) (l : list Z) k :
  (k < length l)%nat -> rd (f <$> l) k = f (rd l k).
Proof.
  intros H. unfold rd. rewrite list_lookup_fmap.
  destruct (lookup_lt_is_Some_2 l k H) as [x ->]. reflexivity.
Qed.

Lemma list_eq_rd (l l' : list Z) :
  length l = length l' ->
  (forall k, (k < length l)%nat -> rd l k = rd l' k) ->
  l = l'.
Proof.
  revert l'. induction l as [|x l IH]; intros [|x' l'] Hlen H; try discriminate Hlen;
    [reflexivity|].
  f_equal.
  - apply (H 0%nat). cbn [length]. lia.
  - apply IH; [cbn [length] in Hlen; lia|].
    intros k Hk. apply (H (S k)). cbn [length]. lia.
Qed.

(** The third loop writes the four little-endian bytes of each word. *)
Lemma key_bytes_explicit w0 w1 w2 w3 w4 w5 w6 w7 tail :
  Tool.key_bytes [w0; w1; w2; w3; w4; w5; w6; w7] (replicate 32 0 ++ tail) =
  flat_map (fun w => [Z.land w 0xFF; Z.land (Z.shiftr w 8) 0xFF;
                      Z.land (Z.shiftr w 16) 0xFF; Z.land (Z.shiftr w 24) 0xFF])
           [w0; w1; w2; w3; w4; w5; w6; w7] ++ tail.
Proof. cbv -[Z.land Z.shiftr]. reflexivity. Qed.

Lemma derive_key_bytes pw key :
  Tool.derive_key_from_password pw key =
  flat_map (fun w => [Z.land w 0xFF; Z.land (Z.shiftr w 8) 0xFF;
                      Z.land (Z.shiftr w 16) 0xFF; Z.land (Z.shiftr w 24) 0xFF])
           (Tool.derived_key_words pw) ++ drop 32 key.
Proof.
  unfold Tool.derive_key_from_password. cbv zeta.
  pose proof (length_derived_key_words pw) as H.
  destruct (Tool.derived_key_words pw) as [|w0 [|w1 [|w2 [|w3 [|w4 [|w5 [|w6 [|w7 [|w8 ws]]]]]]]]];
    try discriminate H.
  apply key_bytes_explicit.
Qed.

(** [_pack4] of the core reads back the word the tool serialised. *)
Lemma pack4_le_key ws tail k :
  length ws = 8%nat -> Forall is_u32 ws -> (k < 8)%nat ->
  _pack4 (memcpy (replicate 32 0)
            (flat_map (fun w => [Z.land w 0xFF; Z.land (Z.shiftr w 8) 0xFF;
                                 Z.land (Z.shiftr w 16) 0xFF; Z.land (Z.shiftr w 24) 0xFF])
                      ws ++ tail) 32) (4 * k) = rd ws k.
Proof.
  intros H Hu Hk.
  destruct ws as [|w0 [|w1 [|w2 [|w3 [|w4 [|w5 [|w6 [|w7 [|w8 ws]]]]]]]]];
    try discriminate H.
  repeat match goal with
         | Hf : Forall _ (_ :: _) |- _ => apply Forall_cons in Hf; destruct Hf as [? Hf]
         end.
  do 8 (destruct k as [|k];
        [cbv -[Z.lor Z.land Z.shiftl Z.shiftr u32 Z.mul]; apply lor_le_bytes; assumption|]).
  lia.
Qed.

Lemma rd_replicate_zero n k : rd (replicate n 0) k = 0.
Proof.
  unfold rd. destruct (replicate n 0 !! k) as [x|] eqn:E; cbn [default]; [|reflexivity].
  apply lookup_replicate in E. apply E.
Qed.

Lemma derived_key_words_short pw k :
  (length pw <= k < 8)%nat -> rd (Tool.derived_key_words pw) k = 0.
Proof.
  intros Hk. rewrite derived_key_words_eq.
  rewrite strengthen_map by (rewrite length_password_loop; reflexivity).
  rewrite rd_fmap by (rewrite length_password_loop; cbn [length replicate]; lia).
  rewrite password_loop_untouched by lia.
  rewrite rd_replicate_zero. reflexivity.
Qed.

(** In the first pass over the key words, two passwords of the same length
    that leave the same words are the same password. *)
Lemma password_loop_injective p :
  forall q i st kw,
    length p = length q -> (i + length p <= 8)%nat -> length kw = 8%nat ->
    is_u32 st -> Forall is_u8 p -> Forall is_u8 q ->
    snd (Tool.password_loop p i st kw) = snd (Tool.password_loop q i st kw) ->
    p = q.
Proof.
  induction p as [|a p IH]; intros [|b q] i st kw Hlen H8 Hkw Hst Hp Hq H;
    try discriminate Hlen; [reflexivity|].
  cbn [length] in Hlen, H8.
  apply Forall_cons in Hp. destruct Hp as [Ha Hp].
  apply Forall_cons in Hq. destruct Hq as [Hb Hq].
  cbn [Tool.password_loop] in H. cbv zeta in H.
  rewrite (Nat.mod_small i 8) in H by lia.
  rewrite !u8_small in H by assumption.
  change (Z.lor (u32 (Z.shiftl (Z.lxor st a) 13)) (Z.shiftr (Z.lxor st a) 19))
    with (_rotl32 (Z.lxor st a) 13) in H.
  change (Z.lor (u32 (Z.shiftl (Z.lxor st b) 13)) (Z.shiftr (Z.lxor st b) 19))
    with (_rotl32 (Z.lxor st b) 13) in H.
  assert (Hu8 : forall x, is_u8 x -> is_u32 x) by (unfold is_u8, is_u32; lia).
  assert (Hab : a = b).
  { pose proof (f_equal (fun l => rd l i) H) as Hi. cbv beta in Hi.
    rewrite !password_loop_untouched in Hi by lia.
    rewrite !rd_insert_eq in Hi by lia.
    apply lxor_injective in Hi.
    apply add32_injective in Hi.
    - apply rotl32_injective in Hi; [apply lxor_injective in Hi; exact Hi | | | lia];
        apply is_u32_lxor; auto.
    - assert (B : forall x, is_u32 x -> is_u32 (_rotl32 x 13)).
      { intros x Hx. unfold _rotl32. apply is_u32_lor; [apply is_u32_u32|].
        apply is_u32_shiftr; [exact Hx | lia]. }
      apply B, is_u32_lxor; auto.
    - assert (B : forall x, is_u32 x -> is_u32 (_rotl32 x 13)).
      { intros x Hx. unfold _rotl32. apply is_u32_lor; [apply is_u32_u32|].
        apply is_u32_shiftr; [exact Hx | lia]. }
      apply B, is_u32_lxor; auto. }
  subst b. f_equal.
  apply (IH q (S i) _ _) in H; try assumption; try lia.
  - rewrite length_insert. exact Hkw.
  - apply is_u32_add32.
Qed.

(** ** Further properties of the command-line tool *)

(** X10. [derive_key_from_password] fills exactly the first 32 bytes of the
    caller's array: the array keeps its length, the first 32 entries are
    bytes (0..255) that do not depend on what the array held before, and the
    entries after them are left as they were. *)
Theorem derive_key_fills_32_bytes pw key :
  (32 <= length key)%nat ->
  length (Tool.derive_key_from_password pw key) = length key /\
  Forall is_u8 (take 32 (Tool.derive_key_from_password pw key)) /\
  take 32 (Tool.derive_key_from_password pw key)
  = Tool.derive_key_from_password pw (replicate 32 0) /\
  drop 32 (Tool.derive_key_from_password pw key) = drop 32 key.
Proof.
  intros Hlen. rewrite !derive_key_bytes.
  pose proof (length_derived_key_words pw) as H.
  destruct (Tool.derived_key_words pw) as [|w0 [|w1 [|w2 [|w3 [|w4 [|w5 [|w6 [|w7 [|w8 ws]]]]]]]]];
    try discriminate H.
  cbn [flat_map app take drop replicate]. rewrite take_0.
  repeat split.
  - cbn [length]. rewrite length_drop. lia.
  - repeat (constructor; [apply is_u8_low_byte|]). constructor.
Qed.

Lemma derive_key_fills_32_bytes_witness :
  let pw := [112; 119] in
  let key := replicate 40 7 in
  (32 <= length key)%nat /\
  length (Tool.derive_key_from_password pw key) = length key /\
  Forall is_u8 (take 32 (Tool.derive_key_from_password pw key)) /\
  take 32 (Tool.derive_key_from_password pw key)
  = Tool.derive_key_from_password pw (replicate 32 0) /\
  drop 32 (Tool.derive_key_from_password pw key) = drop 32 key.
Proof.
  intros pw key.
  assert (H : (32 <= length key)%nat) by (vm_compute; lia).
  refine (conj H _). exact (derive_key_fills_32_bytes pw key H).
Defined.

(** X11. A password of fewer than eight characters leaves the tail of the
    key zero: with [n] characters only the first [4 n] key bytes can be
    nonzero, because the strengthening rounds map a zero word to zero. The
    empty password gives the all-zero key. *)
Theorem short_password_leaves_zero_key_bytes pw key j :
  (32 <= length key)%nat ->
  (4 * length pw <= j < 32)%nat ->
  rd (Tool.derive_key_from_password pw key) j = 0.
Proof.
  intros Hlen Hj. rewrite derive_key_bytes.
  pose proof (length_derived_key_words pw) as H.
  pose proof (derived_key_words_short pw) as Hz.
  destruct (Tool.derived_key_words pw) as [|w0 [|w1 [|w2 [|w3 [|w4 [|w5 [|w6 [|w7 [|w8 ws]]]]]]]]];
    try discriminate H.
  pose proof (Hz 0%nat) as Z0. pose proof (Hz 1%nat) as Z1.
  pose proof (Hz 2%nat) as Z2. pose proof (Hz 3%nat) as Z3.
  pose proof (Hz 4%nat) as Z4. pose proof (Hz 5%nat) as Z5.
  pose proof (Hz 6%nat) as Z6. pose proof (Hz 7%nat) as Z7.
  cbv [rd lookup list_lookup default id] in Z0, Z1, Z2, Z3, Z4, Z5, Z6, Z7.
  clear Hz H.
  do 32 (destruct j as [|j];
         [cbv -[Z.land Z.shiftr];
          first [ rewrite Z0 by lia | rewrite Z1 by lia | rewrite Z2 by lia
                | rewrite Z3 by lia | rewrite Z4 by lia | rewrite Z5 by lia
                | rewrite Z6 by lia | rewrite Z7 by lia ];
          reflexivity|]).
  lia.
Qed.

Lemma short_password_leaves_zero_key_bytes_witness :
  (32 <= length zero_key)%nat /\ (4 * length [112; 119] <= 8 < 32)%nat /\
  rd (Tool.derive_key_from_password [112; 119] zero_key) 8 = 0.
Proof.
  assert (H1 : (32 <= length zero_key)%nat) by (vm_compute; lia).
  assert (H2 : (4 * length [112; 119] <= 8 < 32)%nat) by (cbn [length]; lia).
  refine (conj H1 (conj H2 _)).
  exact (short_password_leaves_zero_key_bytes [112; 119] zero_key 8 H1 H2).
Defined.

(** X12. The little-endian serialisation of the tool and [_pack4] of the
    core cancel: in every context reachable from the derived key, state
    words 2..9 are exactly the eight words the derivation computed. *)
Theorem derived_key_words_reach_state pw key N c :
  (32 <= length key)%nat ->
  reachable (Tool.derive_key_from_password pw key) N c ->
  take 8 (drop 2 (state (keystream c))) = Tool.derived_key_words pw.
Proof.
  intros Hlen Hc.
  destruct (reachable_coherent _ _ _ Hc) as (i & _ & ->).
  rewrite state_fresh. cbv zeta. cbn [take drop].
  rewrite derive_key_bytes.
  pose proof (pack4_le_key (Tool.derived_key_words pw) (drop 32 key)) as P.
  specialize (fun k => P k (length_derived_key_words pw) (derived_key_words_u32 pw)).
  pose proof (P 0%nat ltac:(lia)) as P0. pose proof (P 1%nat ltac:(lia)) as P1.
  pose proof (P 2%nat ltac:(lia)) as P2. pose proof (P 3%nat ltac:(lia)) as P3.
  pose proof (P 4%nat ltac:(lia)) as P4. pose proof (P 5%nat ltac:(lia)) as P5.
  pose proof (P 6%nat ltac:(lia)) as P6. pose proof (P 7%nat ltac:(lia)) as P7.
  cbn [Nat.mul Nat.add] in P0, P1, P2, P3, P4, P5, P6, P7.
  rewrite P0, P1, P2, P3, P4, P5, P6, P7.
  pose proof (length_derived_key_words pw) as H.
  destruct (Tool.derived_key_words pw) as [|w0 [|w1 [|w2 [|w3 [|w4 [|w5 [|w6 [|w7 [|w8 ws]]]]]]]]];
    try discriminate H.
  reflexivity.
Qed.

Lemma derived_key_words_reach_state_witness :
  let K := Tool.derive_key_from_password [112; 119] zero_key in
  let c := fst (helix2_byte (helix2_initialize_context K zero_nonce) 70 1) in
  (32 <= length zero_key)%nat /\ reachable K zero_nonce c /\
  take 8 (drop 2 (state (keystream c))) = Tool.derived_key_words [112; 119].
Proof.
  intros K c.
  assert (H1 : (32 <= length zero_key)%nat) by (vm_compute; lia).
  assert (H2 : reachable K zero_nonce c)
    by (apply reach_byte; [apply reach_init | unfold is_u64; lia]).
  refine (conj H1 (conj H2 _)).
  exact (derived_key_words_reach_state [112; 119] zero_key zero_nonce c H1 H2).
Defined.

(** X13. For passwords of at most eight characters the derivation loses
    nothing: two passwords of the same length with the same derived key are
    the same password (each character lands in a key word of its own, and
    the rotation, the additions, the multiplications and the xor-shifts are
    all invertible on 32-bit words). *)
Theorem derive_key_injective_short p q key :
  (32 <= length key)%nat ->
  length p = length q -> (length p <= 8)%nat ->
  Forall is_u8 p -> Forall is_u8 q ->
  Tool.derive_key_from_password p key = Tool.derive_key_from_password q key ->
  p = q.
Proof.
  intros Hkey Hlen H8 Hp Hq H.
  assert (Hw : Tool.derived_key_words p = Tool.derived_key_words q).
  { apply list_eq_rd; [rewrite !length_derived_key_words; reflexivity|].
    intros k Hk. rewrite length_derived_key_words in Hk.
    rewrite <- (pack4_le_key (Tool.derived_key_words p) (drop 32 key) k)
      by (auto using length_derived_key_words, derived_key_words_u32).
    rewrite <- (pack4_le_key (Tool.derived_key_words q) (drop 32 key) k)
      by (auto using length_derived_key_words, derived_key_words_u32).
    rewrite <- !derive_key_bytes, H. reflexivity. }
  rewrite !derived_key_words_eq in Hw.
  rewrite !strengthen_map in Hw by (rewrite length_password_loop; reflexivity).
  apply (password_loop_injective p q 0 0x9E3779B9 (replicate 8 0)); try assumption;
    try reflexivity; try lia; [unfold is_u32; lia|].
  apply list_eq_rd; [rewrite !length_password_loop; reflexivity|].
  intros k Hk.
  pose proof (f_equal (fun l => rd l k) Hw) as Hk'. cbv beta in Hk'.
  rewrite !rd_fmap in Hk' by (rewrite length_password_loop in *; exact Hk).
  assert (U : forall pw, is_u32 (rd (snd (Tool.password_loop pw 0 0x9E3779B9 (replicate 8 0))) k)).
  { intros pw. unfold rd.
    destruct (snd (Tool.password_loop pw 0 0x9E3779B9 (replicate 8 0)) !! k) as [x|] eqn:E;
      cbn [default]; [|unfold is_u32; lia].
    refine (proj1 (Forall_lookup _ _) _ _ _ E).
    apply password_loop_u32; [unfold is_u32; lia|].
    apply Forall_replicate. unfold is_u32. lia. }
  do 3 (apply mix32_injective_u32 in Hk'; [| repeat apply is_u32_mix32 ..]).
  apply mix32_injective_u32 in Hk'; [exact Hk' | apply U | apply U].
Qed.

Lemma derive_key_injective_short_witness :
  (32 <= length zero_key)%nat /\
  length [112; 119] = length [112; 119] /\ (length [112; 119] <= 8)%nat /\
  Forall is_u8 [112; 119] /\
  Tool.derive_key_from_password [112; 119] zero_key
  = Tool.derive_key_from_password [112; 119] zero_key /\
  [112; 119] = [112; 119].
Proof.
  assert (H1 : (32 <= length zero_key)%nat) by (vm_compute; lia).
  assert (H2 : length [112; 119] = length [112; 119]) by reflexivity.
  assert (H3 : (length [112; 119] <= 8)%nat) by (cbn [length]; lia).
  assert (H4 : Forall is_u8 [112; 119])
    by (repeat constructor; unfold is_u8; lia).
  assert (H5 : Tool.derive_key_from_password [112; 119] zero_key
               = Tool.derive_key_from_password [112; 119] zero_key) by reflexivity.
  refine (conj H1 (conj H2 (conj H3 (conj H4 (conj H5 _))))).
  exact (derive_key_injective_short [112; 119] [112; 119] zero_key H1 H2 H3 H4 H4 H5).
Defined.

(** X14. The read loop of [main] terminates on every file shorter than
    2^64 bytes, and the chunks of [BUFFER_SIZE] bytes it writes are together
    what one call of [helix2_buffer] on the whole file at offset 0 returns.
    (Input and output are distinct files.) *)
Theorem process_file_is_one_buffer_call pw nonce fin :
  Z.of_nat (length fin) < 2 ^ 64 ->
  Tool.process_file pw nonce fin =
  Some (snd (helix2_buffer
               (helix2_initialize_context
                  (Tool.derive_key_from_password pw (replicate 32 0)) nonce)
               fin 0)).
Proof.
  intros Hlen. unfold Tool.process_file. cbv zeta.
  destruct (process_loop_reachable
              (Tool.derive_key_from_password pw (replicate 32 0)) nonce
              (S (length fin))
              (helix2_initialize_context
                 (Tool.derive_key_from_password pw (replicate 32 0)) nonce)
              fin [] 0)
    as (c' & _ & ->); [apply reach_init | lia | lia | lia |].
  rewrite (helix2_buffer_reachable
             (Tool.derive_key_from_password pw (replicate 32 0)) nonce)
    by (try apply reach_init; try assumption; unfold is_u64; lia).
  reflexivity.
Qed.

Lemma process_file_is_one_buffer_call_witness :
  let fin := map Z.of_nat (seq 0 1500) in
  Z.of_nat (length fin) < 2 ^ 64 /\
  Tool.process_file [112; 119] zero_nonce fin =
  Some (snd (helix2_buffer
               (helix2_initialize_context
                  (Tool.derive_key_from_password [112; 119] (replicate 32 0)) zero_nonce)
               fin 0)).
Proof.
  intros fin.
  assert (H : Z.of_nat (length fin) < 2 ^ 64)
    by (unfold fin; rewrite length_map, length_seq; lia).
  refine (conj H _).
  exact (process_file_is_one_buffer_call [112; 119] zero_nonce fin H).
Defined.

(** X15. Running the tool twice with the same password and nonce, each
    time with an output file distinct from its input file, restores the
    data: the output has the length of the input, and processing the
    output gives the input back. *)
Theorem process_file_round_trip pw nonce fin :
  Z.of_nat (length fin) < 2 ^ 64 ->
  Forall is_u8 fin ->
  exists fout,
    Tool.process_file pw nonce fin = Some fout /\
    length fout = length fin /\
    Tool.process_file pw nonce fout = Some fin.
Proof.
  intros Hlen Hbytes.
  set (K := Tool.derive_key_from_password pw (replicate 32 0)).
  assert (E : forall f, Z.of_nat (length f) < 2 ^ 64 ->
                        Tool.process_file pw nonce f
                        = Some (xor_range (block_words K nonce) f 0)).
  { intros f Hf. unfold Tool.process_file. cbv zeta. fold K.
    destruct (process_loop_reachable K nonce (S (length f))
                (helix2_initialize_context K nonce) f [] 0)
      as (c' & _ & ->); [apply reach_init | lia | lia | lia |].
    reflexivity. }
  exists (xor_range (block_words K nonce) fin 0).
  split; [apply E; exact Hlen|].
  split; [apply length_xor_range|].
  rewrite E by (rewrite length_xor_range; exact Hlen).
  rewrite xor_range_involutive by exact Hbytes. reflexivity.
Qed.

Lemma process_file_round_trip_witness :
  let fin := map Z.of_nat (seq 0 200) in
  Z.of_nat (length fin) < 2 ^ 64 /\ Forall is_u8 fin /\
  exists fout,
    Tool.process_file [112; 119] zero_nonce fin = Some fout /\
    length fout = length fin /\
    Tool.process_file [112; 119] zero_nonce fout = Some fin.
Proof.
  intros fin.
  assert (H1 : Z.of_nat (length fin) < 2 ^ 64)
    by (unfold fin; rewrite length_map, length_seq; lia).
  assert (H2 : Forall is_u8 fin).
  { unfold fin. apply Forall_forall. intros x Hx.
    apply list_elem_of_In, in_map_iff in Hx. destruct Hx as (n & <- & Hn).
    apply in_seq in Hn. unfold is_u8. lia. }
  refine (conj H1 (conj H2 _)).
  exact (process_file_round_trip [112; 119] zero_nonce fin H1 H2).
Defined.

(** X16. [generate_nonce_from_seed] writes exactly the first four words of
    the caller's array: word 0 is the seed itself (so different seeds give
    different nonces), the four words are 32-bit values that do not depend
    on what the array held before, and the words after them are left as
    they were. *)
Theorem nonce_from_seed_shape seed nonce_out :
  (4 <= length nonce_out)%nat -> is_u32 seed ->
  rd (Tool.generate_nonce_from_seed seed nonce_out) 0 = seed /\
  Forall is_u32 (take 4 (Tool.generate_nonce_from_seed seed nonce_out)) /\
  take 4 (Tool.generate_nonce_from_seed seed nonce_out)
  = Tool.generate_nonce_from_seed seed (replicate 4 0) /\
  drop 4 (Tool.generate_nonce_from_seed seed nonce_out) = drop 4 nonce_out.
Proof.
  intros Hlen Hseed.
  destruct nonce_out as [|o0 [|o1 [|o2 [|o3 tail]]]]; cbn [length] in Hlen; try lia.
  cbv -[add32 Tool.mix32 Z.lxor u32 Z.mul Z.of_nat is_u32].
  split; [reflexivity|]. split; [|split; reflexivity].
  apply Forall_cons; split; [exact Hseed|].
  do 3 (apply Forall_cons; split;
        [apply is_u32_lxor; [apply is_u32_mix32 | apply is_u32_add32]|]).
  apply Forall_nil_2.
Qed.

Lemma nonce_from_seed_shape_witness :
  let nonce_out := [9; 9; 9; 9; 9] in
  (4 <= length nonce_out)%nat /\ is_u32 12345 /\
  rd (Tool.generate_nonce_from_seed 12345 nonce_out) 0 = 12345 /\
  Forall is_u32 (take 4 (Tool.generate_nonce_from_seed 12345 nonce_out)) /\
  take 4 (Tool.generate_nonce_from_seed 12345 nonce_out)
  = Tool.generate_nonce_from_seed 12345 (replicate 4 0) /\
  drop 4 (Tool.generate_nonce_from_seed 12345 nonce_out) = drop 4 nonce_out.
Proof.
  intros nonce_out.
  assert (H1 : (4 <= length nonce_out)%nat) by (cbn [length nonce_out]; lia).
  assert (H2 : is_u32 12345) by (unfold is_u32; lia).
  refine (conj H1 (conj H2 _)).
  exact (nonce_from_seed_shape 12345 nonce_out H1 H2).
Defined.

(** ** The shuffle is a permutation *)

Lemma is_u32_rd l i : Forall is_u32 l -> is_u32 (rd l i).
Proof.
  intros H. unfold rd. destruct (l !! i) as [x|] eqn:E; cbn [default].
  - exact (proj1 (Forall_lookup _ _) H _ _ E).
  - unfold is_u32. lia.
Qed.

Lemma is_u32_rotl32 x n : is_u32 x -> 0 < n < 32 -> is_u32 (_rotl32 x n).
Proof.
  intros Hx Hn. unfold _rotl32.
  apply is_u32_lor; [apply is_u32_u32 | apply is_u32_shiftr; [exact Hx | lia]].
Qed.

Lemma lxor_injective_l x x' y : Z.lxor x y = Z.lxor x' y -> x = x'.
Proof. rewrite !(Z.lxor_comm _ y). apply lxor_injective. Qed.

(** One statement [state[c] = g(state[c], F(state))] of the shuffle, where
    [F] does not read [state[c]] and [g] is invertible in its first
    argument, can be undone; so can the statements [K] after it. *)
Lemma let_insert_injective (n : nat) (g : Z -> Z -> Z) (F : list Z -> Z) (c : nat)
      (K : list Z -> list Z) (s s' : list Z) :
  (c < n)%nat ->
  (forall l v, F (<[c := v]> l) = F l) ->
  (forall l, Forall is_u32 l -> is_u32 (F l)) ->
  (forall x x' y, is_u32 x -> is_u32 x' -> g x y = g x' y -> x = x') ->
  (forall x y, is_u32 x -> is_u32 y -> is_u32 (g x y)) ->
  (forall t t', length t = n -> length t' = n -> Forall is_u32 t -> Forall is_u32 t' ->
                K t = K t' -> t = t') ->
  length s = n -> length s' = n -> Forall is_u32 s -> Forall is_u32 s' ->
  (let x := <[c := g (rd s c) (F s)]> s in K x)
  = (let x := <[c := g (rd s' c) (F s')]> s' in K x) ->
  s = s'.
Proof.
  intros Hc HF HFu Hg Hgu HK Hs Hs' Hu Hu' H. cbv zeta in H.
  apply HK in H;
    try (rewrite length_insert; assumption);
    try (apply Forall_insert; [assumption|];
         apply Hgu; [apply is_u32_rd; assumption | apply HFu; assumption]).
  assert (E0 : <[c := 0]> s = <[c := 0]> s').
  { apply (f_equal (fun l => <[c := 0]> l)) in H.
    rewrite !list_insert_insert_eq in H. exact H. }
  assert (EF : F s = F s') by (rewrite <- (HF s 0), <- (HF s' 0), E0; reflexivity).
  assert (Ec : rd s c = rd s' c).
  { apply (f_equal (fun l => rd l c)) in H.
    rewrite !rd_insert_eq in H by lia. rewrite EF in H.
    apply Hg in H; [exact H | apply is_u32_rd; assumption ..]. }
  assert (R : forall l, (c < length l)%nat -> <[c := rd l c]> (<[c := 0]> l) = l).
  { intros l Hl. rewrite list_insert_insert_eq. apply list_insert_id.
    unfold rd. destruct (lookup_lt_is_Some_2 l c Hl) as [x ->]. reflexivity. }
  rewrite <- (R s), <- (R s'), E0, Ec by lia. reflexivity.
Qed.

Ltac shuffle_step g F c :=
  lazymatch goal with
  | |- (let x := <[_ := _]> ?s0 in @?k x) = (let y := <[_ := _]> ?s1 in _) -> _ =>
      apply (let_insert_injective (length s0) g F c k s0 s1);
      [ assumption
      | intros ? ?; rewrite !rd_insert_ne by congruence; reflexivity
      | intros ? ?; apply is_u32_rotl32; [|lia];
        repeat first [apply is_u32_add32 | apply is_u32_lxor | apply is_u32_rd; assumption]
      | first [ exact add32_injective | intros ? ? ? _ _; apply lxor_injective_l ]
      | first [ intros ? ? _ _; apply is_u32_add32 | exact is_u32_lxor ]
      |
      | reflexivity | congruence | assumption | assumption ];
      let t := fresh "t" in let t' := fresh "t" in
      let L := fresh "L" in let L' := fresh "L" in
      let U := fresh "U" in let U' := fresh "U" in
      intros t t' L L' U U'; cbv beta
  end.

(** X17. [_helix2_shuffle] on four distinct words is a permutation of the
    32-bit states: two states of the same size with the same result are the
    same state. Each of its eight statements updates one word from the
    other three by an invertible operation. *)
Theorem shuffle_injective s s' a b c d :
  a <> b -> a <> c -> a <> d -> b <> c -> b <> d -> c <> d ->
  (a < length s)%nat -> (b < length s)%nat -> (c < length s)%nat -> (d < length s)%nat ->
  length s' = length s ->
  Forall is_u32 s -> Forall is_u32 s' ->
  _helix2_shuffle s a b c d = _helix2_shuffle s' a b c d ->
  s = s'.
Proof.
  intros Hab Hac Had Hbc Hbd Hcd Ha Hb Hc Hd Hlen Hu Hu'.
  cbv beta delta [_helix2_shuffle].
  shuffle_step add32
    (fun st => _rotl32 (add32 (Z.lxor (rd st a) (rd st b)) (rd st d)) 9) c.
  rewrite <- L in Ha, Hb, Hc, Hd.
  shuffle_step Z.lxor
    (fun st => _rotl32 (Z.lxor (add32 (rd st b) (rd st c)) (rd st a)) 13) d.
  rewrite <- L1 in Ha, Hb, Hc, Hd.
  shuffle_step add32
    (fun st => _rotl32 (add32 (Z.lxor (rd st c) (rd st d)) (rd st b)) 18) a.
  rewrite <- L3 in Ha, Hb, Hc, Hd.
  shuffle_step Z.lxor
    (fun st => _rotl32 (Z.lxor (add32 (rd st d) (rd st a)) (rd st c)) 22) b.
  rewrite <- L5 in Ha, Hb, Hc, Hd.
  shuffle_step Z.lxor (fun st => _rotl32 (add32 (rd st a) (rd st b)) 7) c.
  rewrite <- L7 in Ha, Hb, Hc, Hd.
  shuffle_step add32 (fun st => _rotl32 (Z.lxor (rd st b) (rd st c)) 21) d.
  rewrite <- L9 in Ha, Hb, Hc, Hd.
  shuffle_step Z.lxor (fun st => _rotl32 (add32 (rd st c) (rd st d)) 11) a.
  rewrite <- L11 in Ha, Hb, Hc, Hd.
  shuffle_step add32 (fun st => _rotl32 (Z.lxor (rd st d) (rd st a)) 16) b.
  intros H. exact H.
Qed.

Lemma shuffle_injective_witness :
  let s := [1; 2; 3; 4] in
  (0 <> 1 /\ 0 <> 2 /\ 0 <> 3 /\ 1 <> 2 /\ 1 <> 3 /\ 2 <> 3)%nat /\
  (0 < length s /\ 1 < length s /\ 2 < length s /\ 3 < length s)%nat /\
  length s = length s /\ Forall is_u32 s /\
  _helix2_shuffle s 0 1 2 3 = _helix2_shuffle s 0 1 2 3 /\
  s = s.
Proof.
  intros s.
  assert (N01 : (0 <> 1)%nat) by lia. assert (N02 : (0 <> 2)%nat) by lia.
  assert (N03 : (0 <> 3)%nat) by lia. assert (N12 : (1 <> 2)%nat) by lia.
  assert (N13 : (1 <> 3)%nat) by lia. assert (N23 : (2 <> 3)%nat) by lia.
  assert (L0 : (0 < length s)%nat) by (cbn [length s]; lia).
  assert (L1 : (1 < length s)%nat) by (cbn [length s]; lia).
  assert (L2 : (2 < length s)%nat) by (cbn [length s]; lia).
  assert (L3 : (3 < length s)%nat) by (cbn [length s]; lia).
  assert (Hl : length s = length s) by reflexivity.
  assert (Hu : Forall is_u32 s) by (repeat constructor; unfold is_u32; lia).
  assert (He : _helix2_shuffle s 0 1 2 3 = _helix2_shuffle s 0 1 2 3) by reflexivity.
  refine (conj (conj N01 (conj N02 (conj N03 (conj N12 (conj N13 N23)))))
            (conj (conj L0 (conj L1 (conj L2 L3))) (conj Hl (conj Hu (conj He _))))).
  exact (shuffle_injective s s 0 1 2 3 N01 N02 N03 N12 N13 N23 L0 L1 L2 L3 Hl Hu Hu He).
Defined.

(** ** The cache-less file *)

Lemma legacy_buffer_loop_context K N buffer :
  forall cb bo,
    exists j, fst (Legacy.helix2_buffer_loop (legacy_fresh_at K N cb) buffer cb bo)
              = legacy_fresh_at K N j.
Proof.
  induction buffer as [|b rest IH]; intros cb bo; [exists cb; reflexivity|].
  rewrite legacy_buffer_loop_cons. cbv zeta. cbn [fst].
  destruct (Z.leb HELIX2_KEYSTREAM_SIZE bo).
  - rewrite legacy_regenerate. apply IH.
  - apply IH.
Qed.

Lemma legacy_buffer_context K N c buffer start_offset :
  c = Legacy.helix2_initialize_context K N \/ (exists i, c = legacy_fresh_at K N i) ->
  exists j, fst (Legacy.helix2_buffer c buffer start_offset) = legacy_fresh_at K N j.
Proof.
  intros Hc. unfold Legacy.helix2_buffer. cbv zeta.
  assert (Hgen : Legacy._helix2_initialize_keystream c (start_offset / HELIX2_KEYSTREAM_SIZE)
                 = legacy_fresh_at K N (start_offset / HELIX2_KEYSTREAM_SIZE)).
  { destruct Hc as [->|[i ->]]; [reflexivity | apply legacy_regenerate]. }
  rewrite Hgen. apply legacy_buffer_loop_context.
Qed.

(** X18. The cache-less [helix2_buffer] is its own inverse and does not
    depend on earlier calls: on the context left by any earlier call,
    transforming a range of bytes twice at the same offset gives the bytes
    back. *)
Theorem legacy_buffer_round_trip K N earlier earlier_offset buffer start_offset :
  0 <= start_offset ->
  start_offset + Z.of_nat (length buffer) <= 2 ^ 64 ->
  Forall is_u8 buffer ->
  let c0 := Legacy.helix2_initialize_context K N in
  let c1 := fst (Legacy.helix2_buffer c0 earlier earlier_offset) in
  let r := Legacy.helix2_buffer c1 buffer start_offset in
  snd (Legacy.helix2_buffer (fst r) (snd r) start_offset) = buffer.
Proof.
  intros H0 Hlen Hbytes c0 c1 r.
  destruct (legacy_buffer_context K N c0 earlier earlier_offset (or_introl eq_refl))
    as [j Hj].
  fold c1 in Hj.
  destruct (legacy_buffer_context K N c1 buffer start_offset
              (or_intror (ex_intro _ j Hj))) as [j' Hj'].
  fold r in Hj'.
  assert (Hr : snd r = xor_range (legacy_block_words K N) buffer start_offset).
  { unfold r. apply legacy_buffer_fresh; [right; exists j; exact Hj | exact H0 | exact Hlen]. }
  rewrite Hr, Hj'.
  rewrite (legacy_buffer_fresh K N)
    by (try (right; exists j'; reflexivity); try rewrite length_xor_range; assumption).
  apply xor_range_involutive. exact Hbytes.
Qed.

Lemma legacy_buffer_round_trip_witness :
  let buffer := [1; 2; 3; 250] in
  0 <= 62 /\ 62 + Z.of_nat (length buffer) <= 2 ^ 64 /\ Forall is_u8 buffer /\
  snd (Legacy.helix2_buffer
         (fst (Legacy.helix2_buffer
                 (fst (Legacy.helix2_buffer
                         (Legacy.helix2_initialize_context zero_key zero_nonce) [5; 6] 700))
                 buffer 62))
         (snd (Legacy.helix2_buffer
                 (fst (Legacy.helix2_buffer
                         (Legacy.helix2_initialize_context zero_key zero_nonce) [5; 6] 700))
                 buffer 62))
         62) = buffer.
Proof.
  intros buffer.
  assert (H1 : 0 <= 62) by lia.
  assert (H2 : 62 + Z.of_nat (length buffer) <= 2 ^ 64) by (cbn [length buffer]; lia).
  assert (H3 : Forall is_u8 buffer) by (repeat constructor; unfold is_u8; lia).
  refine (conj H1 (conj H2 (conj H3 _))).
  exact (legacy_buffer_round_trip zero_key zero_nonce [5; 6] 700 buffer 62 H1 H2 H3).
Defined.
